(** * Per-source IPv4 token-bucket rate limiter (TC ingress) and its loader

    A shallow embedding of the TC program [tc_ingress] and of the control
    flow of the loader ([main], [attach_tc]), with the properties of the
    token bucket, of the parse guards, of the drop path and of the process
    exit status.

    Conventions.
    - C integers are [Z]; every store into a [__u32] / [__u64] object is
      written with its wrap-around ([u32], [u64]).
    - The hash map [rate_map] is a [gmap] from the [__u32] key to the
      [rate_state] struct; [max_entries] bounds the number of keys.
    - The pointer [st] returned by [bpf_map_lookup_elem] aliases the value
      stored in the map, so a write through [st] is a write to the entry.
    - Helper calls are recorded in [calls], in call order, so that "no map
      access" is a statement about the log.
    - One invocation runs to completion before the next one starts (the
      interleaving of invocations on several CPUs is not modelled), and
      nothing consumes the ring buffer while the program runs. *)

From Stdlib Require Import ZArith Lia.
From Stdlib.Strings Require Import Byte.
From stdpp Require Import gmap list strings pretty.

Open Scope Z_scope.

(** ** Machine integers *)

Definition u32 (z : Z) : Z := z mod 2 ^ 32.
Definition u64 (z : Z) : Z := z mod 2 ^ 64.

(** ** Constants of the program *)

Definition TC_ACT_OK : Z := 0.
Definition TC_ACT_SHOT : Z := 2.
Definition ETH_P_IP : Z := 0x0800.

(** [max_entries] of [rate_map]. *)
Definition max_entries : Z := 16384.

(** Kernel struct layout used by the bounds checks ([struct ethhdr],
    [struct iphdr] without options, offset of [saddr] in [struct iphdr]). *)
Definition sizeof_ethhdr : nat := 14.
Definition sizeof_iphdr : nat := 20.
Definition offsetof_saddr : nat := 12.

(** [bpf_htons] on a little-endian target: swap the two bytes. *)
Definition bpf_htons (x : Z) : Z :=
  Z.lor (Z.shiftl (Z.land x 0xff) 8) (Z.land (Z.shiftr x 8) 0xff).

(** ** Data *)

(** [.rodata] configuration: two [const volatile int]. *)
Record config := Config {
  rate_limit_pps : Z;
  burst : Z
}.

(** [struct rate_state]. *)
Record rate_state := RateState {
  last_ts_ns : Z;   (* __u64 *)
  tokens : Z;       (* __u32 *)
  dropped : Z       (* __u32 *)
}.

(** [struct event]. *)
Record event := Event {
  e_src_ip : Z;     (* __u32, bytes as in the packet *)
  e_ts_ns : Z;      (* __u64 *)
  e_dropped : Z     (* __u32 *)
}.

(** The part of [struct __sk_buff] the program reads: [protocol] and the
    bytes between [data] and [data_end]. *)
Record sk_buff := SkBuff {
  protocol : Z;
  data : list byte
}.

(** Helper calls, as recorded in the log. *)
Inductive helper_call :=
  | call_ktime_get_ns
  | call_map_lookup_elem (key : Z)
  | call_map_update_elem (key : Z)
  | call_ringbuf_reserve
  | call_ringbuf_submit.

(** Kernel-side state seen by the program: the hash map, the records
    waiting in the ring buffer (oldest first) and the log of helper calls
    (oldest first). *)
Record world := World {
  rate_map : gmap Z rate_state;
  rb : list event;
  calls : list helper_call
}.

Definition empty_world : world := World ∅ [] [].

(** ** A state monad over [world] *)

Definition M (A : Type) : Type := world -> A * world.

Definition ret {A : Type} (a : A) : M A := fun w => (a, w).

Definition bind {A B : Type} (m : M A) (k : A -> M B) : M B :=
  fun w => let (a, w') := m w in k a w'.

Notation "x <- m ;; k" := (bind m (fun x => k))
  (at level 100, m at next level, right associativity).
Notation "m ;;; k" := (bind m (fun _ => k))
  (at level 100, k at level 200, right associativity).

Definition log (c : helper_call) : M unit :=
  fun w => (tt, World (rate_map w) (rb w) (calls w ++ [c])).

(** ** Helpers *)

(** [bpf_ktime_get_ns()]: the clock value [now] is supplied by the caller
    of the model. *)
Definition bpf_ktime_get_ns (now : Z) : M Z :=
  log call_ktime_get_ns ;;; ret now.

(** [bpf_map_lookup_elem(&rate_map, &key)]. *)
Definition bpf_map_lookup_elem (key : Z) : M (option rate_state) :=
  log (call_map_lookup_elem key) ;;;
  fun w => (rate_map w !! key, w).

(** [bpf_map_update_elem(&rate_map, &key, &v, BPF_ANY)]: an existing key is
    overwritten; a new key is inserted unless the map already holds
    [max_entries] keys, in which case the call fails and the map is
    unchanged. The result ([true] on success) is ignored by the program. *)
Definition bpf_map_update_elem (key : Z) (v : rate_state) : M bool :=
  log (call_map_update_elem key) ;;;
  fun w =>
    match rate_map w !! key with
    | Some _ => (true, World (<[key := v]> (rate_map w)) (rb w) (calls w))
    | None =>
        if decide (Z.of_nat (size (rate_map w)) < max_entries)
        then (true, World (<[key := v]> (rate_map w)) (rb w) (calls w))
        else (false, w)
    end.

(** A write through the pointer [st] obtained from a successful lookup of
    [key]: the entry of [key] is overwritten in place. *)
Definition store_st (key : Z) (v : rate_state) : M unit :=
  fun w => (tt, World (<[key := v]> (rate_map w)) (rb w) (calls w)).

Section Engine.

(** Read-only configuration of the loaded program. *)
Variable cfg : config.

(** Number of [struct event] records the ring buffer [rb] can hold
    unconsumed; fixed by the kernel from [max_entries = 256 * 1024]. *)
Variable rb_records : nat.

(** [bpf_ringbuf_reserve(&rb, sizeof(struct event), 0)]: [true] when a record was
    reserved, [false] for NULL. *)
Definition bpf_ringbuf_reserve : M bool :=
  log call_ringbuf_reserve ;;;
  fun w => (bool_decide (length (rb w) < rb_records)%nat, w).

(** [bpf_ringbuf_submit(e, 0)] of a filled record. *)
Definition bpf_ringbuf_submit (e : event) : M unit :=
  log call_ringbuf_submit ;;;
  fun w => (tt, World (rate_map w) (rb w ++ [e]) (calls w)).

(** ** Packet access *)

Definition byte_at (l : list byte) (i : nat) : Z :=
  match l !! i with
  | Some b => Z.of_N (Byte.to_N b)
  | None => 0
  end.

(** [l3->saddr]: the four bytes at offset [sizeof_ethhdr + offsetof_saddr],
    loaded as a [__u32] (little-endian target, no byte swap). *)
Definition saddr (ctx : sk_buff) : Z :=
  let o := (sizeof_ethhdr + offsetof_saddr)%nat in
  byte_at (data ctx) o
  + 2 ^ 8 * byte_at (data ctx) (o + 1)
  + 2 ^ 16 * byte_at (data ctx) (o + 2)
  + 2 ^ 24 * byte_at (data ctx) (o + 3).

(** ** Refill (the block under "Refill tokens based on elapsed time") *)

Definition refill (now_ns : Z) (st : rate_state) : rate_state :=
  let elapsed := u64 (now_ns - last_ts_ns st) in
  if (rate_limit_pps cfg >? 0) && (elapsed >? 0) then
    let add := u64 (elapsed * u64 (rate_limit_pps cfg)) / 1000000000 in
    if add >? 0 then
      let tokens0 := u64 (u64 (tokens st) + add) in
      let tokens1 :=
        if tokens0 >? u64 (burst cfg) then u64 (burst cfg) else tokens0 in
      RateState now_ns (u32 tokens1) (dropped st)
    else st
  else st.

(** ** [tc_ingress]

    The three guards come first and return without any helper call. The
    writes through [st] are [store_st]: the bucket left by the refill
    (equal to the stored one when nothing was added), then either the
    decrement of [tokens] or the increment of [dropped]. *)

Definition tc_ingress (ctx : sk_buff) (now : Z) : M Z :=
  if negb (protocol ctx =? bpf_htons ETH_P_IP) then ret TC_ACT_OK
  else if (length (data ctx) <? sizeof_ethhdr)%nat then ret TC_ACT_OK
  else if (length (data ctx) <? sizeof_ethhdr + sizeof_iphdr)%nat then ret TC_ACT_OK
  else
    let src_ip := saddr ctx in
    now_ns <- bpf_ktime_get_ns now ;;
    st <- bpf_map_lookup_elem src_ip ;;
    match st with
    | None =>
        let new_st :=
          RateState now_ns
                    (if burst cfg >? 0 then u32 (burst cfg - 1) else 0)
                    0 in
        bpf_map_update_elem src_ip new_st ;;;
        ret TC_ACT_OK
    | Some st0 =>
        let st1 := refill now_ns st0 in
        store_st src_ip st1 ;;;
        if tokens st1 >? 0 then
          store_st src_ip
            (RateState (last_ts_ns st1) (u32 (tokens st1 - 1)) (dropped st1)) ;;;
          ret TC_ACT_OK
        else
          let st2 :=
            RateState (last_ts_ns st1) (tokens st1) (u32 (dropped st1 + 1)) in
          store_st src_ip st2 ;;;
          e <- bpf_ringbuf_reserve ;;
          (if e : bool
           then bpf_ringbuf_submit (Event src_ip now_ns (dropped st2))
           else ret tt) ;;;
          ret TC_ACT_SHOT
    end.

(** The key under which a frame is accounted, when it passes the three
    guards of [tc_ingress]. *)
Definition flow_key (ctx : sk_buff) : option Z :=
  if negb (protocol ctx =? bpf_htons ETH_P_IP) then None
  else if (length (data ctx) <? sizeof_ethhdr)%nat then None
  else if (length (data ctx) <? sizeof_ethhdr + sizeof_iphdr)%nat then None
  else Some (saddr ctx).

(** A sequence of invocations, one per frame, each with the clock value
    read during it; returns the verdicts in order. *)
Fixpoint run (pkts : list (sk_buff * Z)) (w : world) : list Z * world :=
  match pkts with
  | [] => ([], w)
  | (ctx, now) :: rest =>
      let (v, w1) := tc_ingress ctx now w in
      let (vs, w2) := run rest w1 in
      (v :: vs, w2)
  end.

End Engine.

(** ** Notions used in the statements *)

(** The bucket left in the map by the decision step (consume a token, or
    count a drop), from the bucket [st1] left by the refill. *)
Definition after_decision (st1 : rate_state) : rate_state :=
  if tokens st1 >? 0
  then RateState (last_ts_ns st1) (u32 (tokens st1 - 1)) (dropped st1)
  else RateState (last_ts_ns st1) (tokens st1) (u32 (dropped st1 + 1)).

(** The token invariant of one bucket, and of every bucket of the map. *)
Definition bucket_inv (cfg : config) (st : rate_state) : Prop :=
  0 <= tokens st <= burst cfg.

Definition store_inv (cfg : config) (w : world) : Prop :=
  map_Forall (fun _ st => bucket_inv cfg st) (rate_map w).

(** Number of verdicts equal to [v]. *)
Definition count_verdict (v : Z) (vs : list Z) : nat :=
  length (filter (fun x => x = v) vs).

(** The frames of [pkts] accounted to the key [k]. *)
Definition only (k : Z) (pkts : list (sk_buff * Z)) : list (sk_buff * Z) :=
  filter (fun p => flow_key p.1 = Some k) pkts.

(** The verdicts given to the frames of key [k] while all of [pkts] is
    processed. *)
Fixpoint run_for (cfg : config) (rb_records : nat) (k : Z)
    (pkts : list (sk_buff * Z)) (w : world) : list Z :=
  match pkts with
  | [] => []
  | (ctx, now) :: rest =>
      let (v, w1) := tc_ingress cfg rb_records ctx now w in
      if decide (flow_key ctx = Some k)
      then v :: run_for cfg rb_records k rest w1
      else run_for cfg rb_records k rest w1
  end.

(** What settles the fate of the frames of [k] in the rest of a run, for
    a run [w1] with [n1] frames left and a run [w2] with [n2] frames left:
    the bucket exists already, or the map is full for good, or it has room
    for one key per remaining frame. *)
Definition settled (k : Z) (w1 w2 : world) (n1 n2 : nat) : Prop :=
  is_Some (rate_map w1 !! k)
  \/ (max_entries <= Z.of_nat (size (rate_map w1))
      /\ max_entries <= Z.of_nat (size (rate_map w2)))
  \/ (Z.of_nat (size (rate_map w1)) + Z.of_nat n1 <= max_entries
      /\ Z.of_nat (size (rate_map w2)) + Z.of_nat n2 <= max_entries).

(** The records of [n] consecutive drops of key [k] at time [now], the
    first one being drop number [d + 1] of the bucket; the counter is a
    [__u32]. *)
Definition drop_events (k now d n : Z) : list event :=
  map (fun i => Event k now (u32 i)) (seqZ (d + 1) n).

(** The records with counters [1, 2, ..., n]. *)
Definition burst_events (k now n : Z) : list event :=
  map (fun i => Event k now i) (seqZ 1 n).

(** The kernel state in which the first frame of key [k] of [pkts] is
    processed, when [pkts] has a frame of [k]. *)
Fixpoint state_at_first (cfg : config) (rb_records : nat) (k : Z)
    (pkts : list (sk_buff * Z)) (w : world) : option world :=
  match pkts with
  | [] => None
  | (ctx, now) :: rest =>
      if decide (flow_key ctx = Some k) then Some w
      else state_at_first cfg rb_records k rest
             (tc_ingress cfg rb_records ctx now w).2
  end.

(** The map has a free slot when the first frame of [k] arrives (nothing
    is asked when [pkts] has no frame of [k]). *)
Definition room_at_first (cfg : config) (rb_records : nat) (k : Z)
    (pkts : list (sk_buff * Z)) (w : world) : Prop :=
  match state_at_first cfg rb_records k pkts w with
  | Some w' => Z.of_nat (size (rate_map w')) < max_entries
  | None => True
  end.

(** Length in bytes of the IPv4 header announced by the frame: four times
    the IHL field, the low four bits of the first byte after the Ethernet
    header. *)
Definition ip_header_length (ctx : sk_buff) : nat :=
  (4 * Z.to_nat (Z.land (byte_at (data ctx) sizeof_ethhdr) 15))%nat.

(** The IPv4 header announced by the frame lies within the packet. *)
Definition l3_header_fits (ctx : sk_buff) : Prop :=
  (sizeof_ethhdr + ip_header_length ctx <= length (data ctx))%nat.

(** A 34-byte IPv4 frame whose IHL field is 15: it announces a 60-byte
    IPv4 header, of which only the first 20 bytes are present. *)
Definition ipv4_frame_ihl15 : sk_buff :=
  SkBuff (bpf_htons ETH_P_IP) (replicate 14 x00 ++ [x4f] ++ replicate 19 x00).

(** ** Frames used by the examples *)

Definition byte_of_Z (z : Z) : byte :=
  match Byte.of_N (Z.to_N (z mod 256)) with
  | Some b => b
  | None => x00
  end.

(** A minimal IPv4 frame (14-byte Ethernet header, 20-byte IPv4 header)
    whose [saddr] field loads as [a]; all other bytes are zero. *)
Definition ipv4_frame (a : Z) : sk_buff :=
  SkBuff (bpf_htons ETH_P_IP)
         (replicate 26 x00
          ++ [byte_of_Z a; byte_of_Z (a / 2 ^ 8);
              byte_of_Z (a / 2 ^ 16); byte_of_Z (a / 2 ^ 24)]
          ++ replicate 4 x00).

(** A store holding the bucket [st] for each of the keys [0 .. n-1]. *)
Fixpoint store_of_keys (n : nat) (st : rate_state) : gmap Z rate_state :=
  match n with
  | O => ∅
  | S n' => <[Z.of_nat n' := st]> (store_of_keys n' st)
  end.

(** ** The loader: [attach_tc] and [main] *)

Definition EINTR : Z := 4.
Definition EEXIST : Z := 17.

(** Results of the library calls made during start-up. *)
Record startup := Startup {
  argp_parse_ret : Z;        (* argp_parse *)
  setup_ok : bool;           (* setup() *)
  skel_open_ok : bool;       (* rateLimiter_bpf__open() != NULL *)
  skel_load_ret : Z;         (* rateLimiter_bpf__load *)
  ifindex : Z;               (* if_nametoindex *)
  tc_attach_ret : Z;         (* bpf_tc_attach *)
  ring_buffer_new_ok : bool  (* ring_buffer__new() != NULL *)
}.

Definition attach_tc (s : startup) : Z :=
  if ifindex s =? 0 then -1
  else
    let err := 0 in
    if negb (err =? 0) && negb (err =? - EEXIST) then err
    else
      let err := tc_attach_ret s in
      if negb (err =? 0) then err else 0.

(** What one evaluation of the loop condition [while (!exiting)] sees:
    the flag set, or the flag clear followed by the result of
    [ring_buffer__poll]. *)
Inductive loop_obs :=
  | exiting_set
  | exiting_clear (poll_ret : Z).

(** The poll loop; [err] is the variable of [main]. [None] when the
    observations end while the loop is still running. *)
Fixpoint poll_loop (err : Z) (obs : list loop_obs) : option Z :=
  match obs with
  | [] => None
  | exiting_set :: _ => Some err
  | exiting_clear r :: rest =>
      if r =? - EINTR then Some 0
      else if r <? 0 then Some r
      else poll_loop r rest
  end.

(** The value returned by [main]. *)
Definition main (s : startup) (obs : list loop_obs) : option Z :=
  let err := argp_parse_ret s in
  if negb (err =? 0) then Some err
  else if negb (setup_ok s) then Some 1
  else if negb (skel_open_ok s) then Some 1
  else
    let err := skel_load_ret s in
    if negb (err =? 0) then Some (- err)
    else
      let err := attach_tc s in
      if negb (err =? 0) then Some (- err)
      else if negb (ring_buffer_new_ok s) then Some (- (-1))
      else
        match poll_loop err obs with
        | Some err => Some (- err)
        | None => None
        end.

(** The exit status seen by the parent process: the low eight bits of the
    value returned by [main]. *)
Definition exit_status (r : Z) : Z := r mod 256.

(** A start-up in which every call succeeds. *)
Definition startup_ok : startup := Startup 0 true true 0 5 0 true.

(** ** Clock values of a run *)

(** The clock values of [pkts] never go back; they start at or after [lo]
    and end at or before [hi]. *)
Fixpoint clock_between (lo hi : Z) (pkts : list (sk_buff * Z)) : Prop :=
  match pkts with
  | [] => lo <= hi
  | (_, now) :: rest => lo <= now /\ clock_between now hi rest
  end.

(** ** The event consumer: [handle_event] *)

Definition INET_ADDRSTRLEN : nat := 16.

Definition newline : string := String (Ascii.ascii_of_nat 10) EmptyString.

(** The four bytes of a [struct in_addr] whose [s_addr] is [a], in memory
    order (little-endian target). *)
Definition in_addr_bytes (a : Z) : list Z :=
  [a mod 2 ^ 8; (a / 2 ^ 8) mod 2 ^ 8; (a / 2 ^ 16) mod 2 ^ 8;
   (a / 2 ^ 24) mod 2 ^ 8].

(** Dotted decimal text of a list of bytes. *)
Definition dotted (bs : list Z) : string :=
  String.concat "." (map pretty bs).

(** [inet_ntop(AF_INET, &addr, buf, size)] of the C library: the dotted
    decimal text of the bytes of [addr] in memory order, or NULL when the
    text and its terminator do not fit [size] bytes. *)
Definition inet_ntop (addr : list Z) (size : nat) : option string :=
  let s := dotted addr in
  if (String.length s <? size)%nat then Some s else None.

(** [handle_event]: the value returned to libbpf and the line written to
    the standard output. *)
Definition handle_event (e : event) : Z * string :=
  let ip :=
    match inet_ntop (in_addr_bytes (e_src_ip e)) INET_ADDRSTRLEN with
    | Some s => s
    | None => "<invalid>"
    end in
  (0, "Rate-limited packet from " +:+ ip
      +:+ ", total dropped for this IP: " +:+ pretty (e_dropped e)
      +:+ newline).

(** ** Command line: [parse_arg] *)

(** [IFNAMSIZ] of net/if.h, the size of [env.ifname]. *)
Definition IFNAMSIZ : nat := 16.

(** [struct env]. [env_ifname] is the whole array. *)
Record cli_env := CliEnv {
  env_rate : Z;              (* int *)
  env_burst : Z;             (* int *)
  env_verbose : bool;
  env_ifname : list byte     (* char [IFNAMSIZ] *)
}.

(** The initialiser of [env]: 1000, 200, false, "ens160". *)
Definition default_env : cli_env :=
  CliEnv 1000 200 false
         ([x65; x6e; x73; x31; x36; x30] ++ replicate 10 x00).

(** Conversion of a [long] to [int]: the low 32 bits, as a signed value. *)
Definition sint32 (z : Z) : Z := (z + 2 ^ 31) mod 2 ^ 32 - 2 ^ 31.

(** [strncpy(dst, src, n)] for a source string given without its
    terminator: the first [n] bytes of [src], padded with NUL up to [n]. *)
Definition strncpy (src : list byte) (n : nat) : list byte :=
  take n src ++ replicate (n - length src) x00.

(** The C string held by a buffer: the bytes before the first NUL. *)
Fixpoint c_str (buf : list byte) : list byte :=
  match buf with
  | [] => []
  | b :: rest => if Byte.eqb b x00 then [] else b :: c_str rest
  end.

(** Outcome of one call of [parse_arg]: the updated [env] with result 0,
    the process ended by [argp_usage], or [ARGP_ERR_UNKNOWN]. *)
Inductive parse_result :=
  | parsed (env : cli_env)
  | usage_exit
  | err_unknown.

(** Option keys: the character codes of the [switch], and
    [ARGP_KEY_ARG]. *)
Definition KEY_i : Z := 105.
Definition KEY_r : Z := 114.
Definition KEY_b : Z := 98.
Definition KEY_v : Z := 118.
Definition KEY_h : Z := 104.
Definition ARGP_KEY_ARG : Z := 0.

(** [parse_arg]. [arg] is the option's argument without its terminator;
    [val] and [errno] are what [strtol (arg, NULL, 10)] returned and left
    in [errno] (after [errno = 0]). *)
Definition parse_arg (key : Z) (arg : list byte) (val errno : Z)
    (env : cli_env) : parse_result :=
  if key =? KEY_i then
    if (IFNAMSIZ <=? length arg)%nat then usage_exit
    else
      parsed (CliEnv (env_rate env) (env_burst env) (env_verbose env)
                     (strncpy arg (IFNAMSIZ - 1) ++ [x00]))
  else if key =? KEY_r then
    if negb (errno =? 0) || (val <=? 0) then usage_exit
    else parsed (CliEnv (sint32 val) (env_burst env) (env_verbose env)
                        (env_ifname env))
  else if key =? KEY_b then
    if negb (errno =? 0) || (val <=? 0) then usage_exit
    else parsed (CliEnv (env_rate env) (sint32 val) (env_verbose env)
                        (env_ifname env))
  else if key =? KEY_v then
    parsed (CliEnv (env_rate env) (env_burst env) true (env_ifname env))
  else if (key =? KEY_h) || (key =? ARGP_KEY_ARG) then usage_exit
  else err_unknown.

(** The two assignments of [main] into [skel->rodata]. *)
Definition config_of_env (env : cli_env) : config :=
  Config (env_rate env) (env_burst env).

(** ** Process set-up: [handle_signal], [bump_memlock_rlimit], [setup] *)

Definition SIGINT : Z := 2.
Definition SIGTERM : Z := 15.

(** The process state the set-up code writes: the flag [exiting], the
    signals whose handler is [handle_signal], and the two settings made
    through libbpf and [setrlimit]. *)
Record process := Process {
  exiting : Z;
  handled : list Z;
  strict_mode : bool;
  memlock_unlimited : bool
}.

(** Results of the system calls made by [setup]. *)
Record setup_calls := SetupCalls {
  setrlimit_ret : Z;          (* setrlimit(RLIMIT_MEMLOCK, ...) *)
  signal_err : Z -> bool      (* signal(signo, ...) == SIG_ERR *)
}.

Definition handle_signal (signo : Z) (p : process) : process :=
  Process 1 (handled p) (strict_mode p) (memlock_unlimited p).

Definition bump_memlock_rlimit (c : setup_calls) (p : process)
    : bool * process :=
  if negb (setrlimit_ret c =? 0) then (false, p)
  else (true, Process (exiting p) (handled p) (strict_mode p) true).

Definition install (signo : Z) (p : process) : process :=
  Process (exiting p) (signo :: handled p) (strict_mode p)
          (memlock_unlimited p).

Definition setup (c : setup_calls) (p : process) : bool * process :=
  let p := Process (exiting p) (handled p) true (memlock_unlimited p) in
  let (ok, p) := bump_memlock_rlimit c p in
  if negb ok then (false, p)
  else if signal_err c SIGINT then (false, p)
  else
    let p := install SIGINT p in
    if signal_err c SIGTERM then (false, p)
    else (true, install SIGTERM p).

(** Delivery of a signal whose handler is [handle_signal]; signals with
    another disposition are outside the model and leave the state as it
    is. *)
Definition deliver (signo : Z) (p : process) : process :=
  if decide (signo ∈ handled p) then handle_signal signo p else p.

(** The process at program start: flag clear, nothing installed. *)
Definition process_start : process := Process 0 [] false false.

(** ** Notions used in the statements about the loader *)

(** A usable [env]: both numbers positive C [int]s, and [env_ifname] a
    full array holding a terminated string. *)
Definition env_valid (env : cli_env) : Prop :=
  0 < env_rate env < 2 ^ 31
  /\ 0 < env_burst env < 2 ^ 31
  /\ length (env_ifname env) = IFNAMSIZ
  /\ (length (c_str (env_ifname env)) < IFNAMSIZ)%nat.

(** Every call of the start-up sequence of [main] succeeds. *)
Definition startup_succeeds (s : startup) : Prop :=
  argp_parse_ret s = 0
  /\ setup_ok s = true
  /\ skel_open_ok s = true
  /\ skel_load_ret s = 0
  /\ ifindex s <> 0
  /\ tc_attach_ret s = 0
  /\ ring_buffer_new_ok s = true.

(** * Properties *)

(** ** Characterisation of one invocation *)

Section Step.

Variable cfg : config.
Variable rb_records : nat.

Lemma flow_key_range ctx k : flow_key ctx = Some k -> 0 <= k < 2 ^ 32.
Proof.
  unfold flow_key.
  destruct (negb _); [discriminate|].
  destruct (_ <? _)%nat; [discriminate|].
  destruct (_ <? _)%nat; [discriminate|].
  intros [= <-]. unfold saddr, byte_at.
  assert (Hb : forall b : byte, 0 <= Z.of_N (Byte.to_N b) < 256).
  { intros b. pose proof (Byte.to_N_bounded b). lia. }
  repeat match goal with
         | |- context [data ctx !! ?i] =>
             let o := fresh "o" in
             destruct (data ctx !! i) as [o|]; [pose proof (Hb o)|]
         end; lia.
Qed.

(** A frame that fails one of the three guards is admitted and nothing
    is touched. *)
Lemma tc_ingress_reject ctx now w :
  flow_key ctx = None ->
  tc_ingress cfg rb_records ctx now w = (TC_ACT_OK, w).
Proof.
  unfold flow_key, tc_ingress.
  destruct (negb _); [reflexivity|].
  destruct (_ <? _)%nat; [reflexivity|].
  destruct (_ <? _)%nat; [reflexivity|].
  discriminate.
Qed.

(** First packet of a key. *)
Lemma tc_ingress_new ctx now w k :
  flow_key ctx = Some k ->
  rate_map w !! k = None ->
  tc_ingress cfg rb_records ctx now w =
    (TC_ACT_OK,
     World (if decide (Z.of_nat (size (rate_map w)) < max_entries)
            then <[k := RateState now
                           (if burst cfg >? 0 then u32 (burst cfg - 1) else 0)
                           0]> (rate_map w)
            else rate_map w)
           (rb w)
           (calls w ++ [call_ktime_get_ns; call_map_lookup_elem k;
                        call_map_update_elem k])).
Proof.
  unfold flow_key, tc_ingress.
  destruct (negb _); [discriminate|].
  destruct (_ <? _)%nat; [discriminate|].
  destruct (_ <? _)%nat; [discriminate|].
  intros [= <-]. generalize (saddr ctx). intros k Hk.
  destruct w as [m r c]. cbn [rate_map rb calls] in *.
  unfold bind, bpf_ktime_get_ns, bpf_map_lookup_elem, bpf_map_update_elem,
    log, ret, bind.
  cbn [rate_map rb calls]. rewrite Hk.
  cbn [rate_map rb calls]. rewrite Hk.
  destruct (decide _); rewrite <- ?app_assoc; reflexivity.
Qed.

Lemma tc_ingress_existing ctx now w k st0 :
  flow_key ctx = Some k ->
  rate_map w !! k = Some st0 ->
  let st1 := refill cfg now st0 in
  tc_ingress cfg rb_records ctx now w =
    if tokens st1 >? 0 then
      (TC_ACT_OK,
       World (<[k := after_decision st1]> (rate_map w)) (rb w)
             (calls w ++ [call_ktime_get_ns; call_map_lookup_elem k]))
    else if bool_decide (length (rb w) < rb_records)%nat then
      (TC_ACT_SHOT,
       World (<[k := after_decision st1]> (rate_map w))
             (rb w ++ [Event k now (u32 (dropped st1 + 1))])
             (calls w ++ [call_ktime_get_ns; call_map_lookup_elem k;
                          call_ringbuf_reserve; call_ringbuf_submit]))
    else
      (TC_ACT_SHOT,
       World (<[k := after_decision st1]> (rate_map w)) (rb w)
             (calls w ++ [call_ktime_get_ns; call_map_lookup_elem k;
                          call_ringbuf_reserve])).
Proof.
  unfold flow_key, tc_ingress.
  destruct (negb _); [discriminate|].
  destruct (_ <? _)%nat; [discriminate|].
  destruct (_ <? _)%nat; [discriminate|].
  intros [= <-]. generalize (saddr ctx). intros k Hk. cbv zeta.
  destruct w as [m r c]. cbn [rate_map rb calls] in *.
  unfold bind, bpf_ktime_get_ns, bpf_map_lookup_elem, store_st,
    bpf_ringbuf_reserve, bpf_ringbuf_submit, log, ret, bind.
  cbn [rate_map rb calls]. rewrite Hk.
  set (st1 := refill cfg now st0).
  cbn [rate_map rb calls]. unfold after_decision.
  destruct (tokens st1 >? 0).
  - cbn [rate_map rb calls].
    rewrite insert_insert_eq, <- ?app_assoc. reflexivity.
  - cbn [rate_map rb calls dropped].
    rewrite insert_insert_eq.
    destruct (bool_decide _); cbn [rate_map rb calls];
      rewrite <- ?app_assoc; reflexivity.
Qed.

End Step.

(** ** The refill step *)

Section Refill.

Variable cfg : config.

(** With the clock equal to the stored timestamp the bucket is left as it
    is. *)
Lemma refill_same_time now st :
  last_ts_ns st = now -> refill cfg now st = st.
Proof.
  intros <-. unfold refill, u64.
  rewrite Z.sub_diag, Z.mod_0_l by lia.
  rewrite andb_false_r. reflexivity.
Qed.

Lemma refill_dropped now st : dropped (refill cfg now st) = dropped st.
Proof.
  unfold refill.
  destruct (_ && _); [|reflexivity].
  destruct (_ >? 0); reflexivity.
Qed.

(** The refill never leaves the interval [0, burst]. *)
Lemma refill_tokens_bounds now st :
  0 < burst cfg < 2 ^ 31 ->
  0 <= tokens st <= burst cfg ->
  0 <= tokens (refill cfg now st) <= burst cfg.
Proof.
  intros Hb Ht. unfold refill.
  destruct (_ && _); [|exact Ht].
  set (x := u64 (_ * _)).
  assert (Hx : 0 <= x < 2 ^ 64) by (apply Z.mod_pos_bound; lia).
  assert (Ha : 0 <= x / 1000000000 < 2 ^ 35).
  { split; [apply Z.div_pos; lia | apply Z.div_lt_upper_bound; lia]. }
  destruct (_ >? 0); [|exact Ht].
  cbn [tokens]. unfold u64, u32.
  rewrite (Z.mod_small (tokens st)) by lia.
  rewrite (Z.mod_small (tokens st + _)) by lia.
  rewrite (Z.mod_small (burst cfg)) by lia.
  destruct (Z.gtb_spec (tokens st + x / 1000000000) (burst cfg));
    rewrite Z.mod_small; lia.
Qed.

(** When the product [elapsed * rate] fits 64 bits the refill is the one of
    the algorithm: [add = floor (elapsed_ns * rate / 10^9)], and for
    [add > 0] the tokens become [min (tokens + add) burst] and the
    timestamp becomes the clock value. *)
Lemma refill_no_overflow now st :
  0 < rate_limit_pps cfg < 2 ^ 31 ->
  0 < burst cfg < 2 ^ 31 ->
  0 <= tokens st < 2 ^ 32 ->
  0 <= last_ts_ns st < now ->
  (now - last_ts_ns st) * rate_limit_pps cfg < 2 ^ 64 ->
  refill cfg now st =
    let add := (now - last_ts_ns st) * rate_limit_pps cfg / 1000000000 in
    if add >? 0
    then RateState now (Z.min (tokens st + add) (burst cfg)) (dropped st)
    else st.
Proof.
  intros Hr Hb Ht Hl Ho. unfold refill, u64.
  assert (He : 0 < now - last_ts_ns st < 2 ^ 64) by nia.
  rewrite (Z.mod_small (now - _)) by lia.
  rewrite (Z.mod_small (rate_limit_pps cfg)) by lia.
  rewrite (Z.mod_small (_ * _)) by nia.
  replace (rate_limit_pps cfg >? 0) with true by (symmetry; apply Z.gtb_lt; lia).
  replace (now - last_ts_ns st >? 0) with true by (symmetry; apply Z.gtb_lt; lia).
  cbn [andb]. cbv zeta.
  set (add := _ / 1000000000).
  assert (Ha : 0 <= add < 2 ^ 64).
  { split; [apply Z.div_pos; nia | apply Z.div_lt_upper_bound; nia]. }
  destruct (Z.gtb_spec add 0); [|reflexivity].
  assert (Hadd : add < 2 ^ 35) by (apply Z.div_lt_upper_bound; nia).
  rewrite (Z.mod_small (tokens st)) by lia.
  rewrite (Z.mod_small (tokens st + add)) by lia.
  rewrite (Z.mod_small (burst cfg)) by lia.
  unfold u32.
  destruct (Z.gtb_spec (tokens st + add) (burst cfg)).
  - rewrite Z.mod_small, Z.min_r by lia. reflexivity.
  - rewrite Z.mod_small, Z.min_l by lia. reflexivity.
Qed.

End Refill.

(** Scenario of the README: rate 10, burst 10, bucket drained, one second
    idle, one packet: admitted, nine tokens left. *)
Example refill_after_one_second :
  let cfg := Config 10 10 in
  let w := World {[ 7 := RateState 0 0 3 ]} [] [] in
  let '(v, w') := tc_ingress cfg 8 (ipv4_frame 7) 1000000000 w in
  v = TC_ACT_OK /\ rate_map w' !! 7 = Some (RateState 1000000000 9 3).
Proof. vm_compute. split; reflexivity. Qed.

(** ** Verdicts and guards *)

(** C9. For every frame, clock value and kernel state, [tc_ingress] returns
    [TC_ACT_OK] (0) or [TC_ACT_SHOT] (2) and nothing else. *)
Theorem tc_ingress_verdict_ok_or_shot cfg rb_records ctx now w :
  (tc_ingress cfg rb_records ctx now w).1 = TC_ACT_OK
  \/ (tc_ingress cfg rb_records ctx now w).1 = TC_ACT_SHOT.
Proof.
  destruct (flow_key ctx) as [k|] eqn:Hk.
  - destruct (rate_map w !! k) as [st0|] eqn:Hm.
    + rewrite (tc_ingress_existing cfg rb_records ctx now w k st0 Hk Hm).
      cbv zeta. destruct (_ >? 0); [left; reflexivity|].
      destruct (bool_decide _); right; reflexivity.
    + rewrite (tc_ingress_new cfg rb_records ctx now w k Hk Hm).
      left; reflexivity.
  - rewrite (tc_ingress_reject cfg rb_records ctx now w Hk).
    left; reflexivity.
Qed.

(** C5. A frame whose [protocol] is not IPv4, or that is too short for the
    Ethernet header, or too short for the Ethernet and IPv4 headers, is
    admitted with the kernel state unchanged; the log of helper calls is
    part of that state, so no clock read, map lookup, map update or ring
    buffer call was made. The protocol test comes first: for a non-IPv4
    frame this holds whatever the packet bytes are. *)
Theorem tc_ingress_fail_open cfg rb_records ctx now w :
  protocol ctx <> bpf_htons ETH_P_IP
  \/ (length (data ctx) < sizeof_ethhdr)%nat
  \/ (length (data ctx) < sizeof_ethhdr + sizeof_iphdr)%nat ->
  tc_ingress cfg rb_records ctx now w = (TC_ACT_OK, w).
Proof.
  intros H. apply tc_ingress_reject. unfold flow_key.
  unfold sizeof_ethhdr, sizeof_iphdr in *.
  destruct (Z.eqb_spec (protocol ctx) (bpf_htons ETH_P_IP)) as [Hp|Hp];
    cbn [negb]; [|reflexivity].
  destruct (Nat.ltb_spec (length (data ctx)) 14); [reflexivity|].
  destruct (Nat.ltb_spec (length (data ctx)) (14 + 20)); [reflexivity|].
  destruct H as [H|[H|H]]; [contradiction | lia | lia].
Qed.

Lemma tc_ingress_fail_open_witness :
  (length (data (SkBuff (bpf_htons ETH_P_IP) [x45; x00])) < sizeof_ethhdr)%nat
  /\ tc_ingress (Config 1000 200) 8 (SkBuff (bpf_htons ETH_P_IP) [x45; x00]) 17
       empty_world = (TC_ACT_OK, empty_world).
Proof.
  split.
  - unfold sizeof_ethhdr; cbn; lia.
  - apply (tc_ingress_fail_open (Config 1000 200) 8
             (SkBuff (bpf_htons ETH_P_IP) [x45; x00]) 17 empty_world).
    right; left; unfold sizeof_ethhdr; cbn; lia.
Defined.

(** C5, counterexample. A 34-byte IPv4 frame with IHL 15 announces a
    60-byte layer-3 header that does not fit the packet, yet it passes the
    two bounds checks, which compare the packet with the fixed sizes of
    [struct ethhdr] and [struct iphdr]: on the empty map the clock is read,
    the key is looked up and a bucket is inserted; on a bucket without
    tokens the frame is dropped. *)
Lemma truncated_options_frame_reaches_map :
  let cfg := Config 1000 200 in
  let ctx := ipv4_frame_ihl15 in
  protocol ctx = bpf_htons ETH_P_IP
  /\ length (data ctx) = 34%nat
  /\ ip_header_length ctx = 60%nat
  /\ ~ l3_header_fits ctx
  /\ calls (tc_ingress cfg 8 ctx 5 empty_world).2
     = [call_ktime_get_ns; call_map_lookup_elem 0; call_map_update_elem 0]
  /\ rate_map (tc_ingress cfg 8 ctx 5 empty_world).2 !! 0
     = Some (RateState 5 199 0)
  /\ (tc_ingress cfg 8 ctx 5 (World {[ 0 := RateState 5 0 0 ]} [] [])).1
     = TC_ACT_SHOT
  /\ tc_ingress cfg 8 ctx 5 empty_world <> (TC_ACT_OK, empty_world).
Proof.
  cbv zeta.
  split; [reflexivity|]. split; [reflexivity|].
  split; [vm_compute; reflexivity|].
  split; [unfold l3_header_fits; vm_compute; lia|].
  split; [vm_compute; reflexivity|].
  split; [vm_compute; reflexivity|].
  split; [vm_compute; reflexivity|].
  vm_compute. discriminate.
Qed.

(** ** Effect of the decision on an existing bucket *)

(** C10. For a packet accounted to an existing bucket: on admit the
    bucket's [dropped] field is unchanged; on drop the [tokens] and
    [last_ts_ns] fields are the ones left by the refill and [dropped] is
    the old value plus one modulo 2^32. *)
Theorem decision_frame cfg rb_records ctx now w k st0 :
  flow_key ctx = Some k ->
  rate_map w !! k = Some st0 ->
  exists st',
    rate_map (tc_ingress cfg rb_records ctx now w).2 !! k = Some st'
    /\ ((tc_ingress cfg rb_records ctx now w).1 = TC_ACT_OK ->
        dropped st' = dropped st0)
    /\ ((tc_ingress cfg rb_records ctx now w).1 = TC_ACT_SHOT ->
        tokens st' = tokens (refill cfg now st0)
        /\ last_ts_ns st' = last_ts_ns (refill cfg now st0)
        /\ dropped st' = (dropped st0 + 1) mod 2 ^ 32).
Proof.
  intros Hk Hm.
  rewrite (tc_ingress_existing cfg rb_records ctx now w k st0 Hk Hm).
  cbv zeta. exists (after_decision (refill cfg now st0)).
  unfold after_decision.
  destruct (tokens (refill cfg now st0) >? 0).
  - cbn [fst snd rate_map]. rewrite lookup_insert_eq.
    split; [reflexivity|]. split.
    + intros _. cbn [dropped]. apply refill_dropped.
    + unfold TC_ACT_OK, TC_ACT_SHOT. discriminate.
  - assert (Hd : u32 (dropped (refill cfg now st0) + 1)
                 = (dropped st0 + 1) mod 2 ^ 32)
      by (rewrite refill_dropped; reflexivity).
    destruct (bool_decide _); cbn [fst snd rate_map];
      rewrite lookup_insert_eq;
      (split; [reflexivity|]);
      (split; [unfold TC_ACT_OK, TC_ACT_SHOT; discriminate|]);
      intros _; cbn [tokens last_ts_ns dropped]; auto.
Qed.

Lemma decision_frame_witness :
  flow_key (ipv4_frame 7) = Some 7
  /\ rate_map (World {[ 7 := RateState 5 0 3 ]} [] []) !! 7
     = Some (RateState 5 0 3)
  /\ exists st',
       rate_map (tc_ingress (Config 1000 200) 8 (ipv4_frame 7) 5
                   (World {[ 7 := RateState 5 0 3 ]} [] [])).2 !! 7 = Some st'
       /\ ((tc_ingress (Config 1000 200) 8 (ipv4_frame 7) 5
              (World {[ 7 := RateState 5 0 3 ]} [] [])).1 = TC_ACT_OK ->
           dropped st' = dropped (RateState 5 0 3))
       /\ ((tc_ingress (Config 1000 200) 8 (ipv4_frame 7) 5
              (World {[ 7 := RateState 5 0 3 ]} [] [])).1 = TC_ACT_SHOT ->
           tokens st' = tokens (refill (Config 1000 200) 5 (RateState 5 0 3))
           /\ last_ts_ns st'
              = last_ts_ns (refill (Config 1000 200) 5 (RateState 5 0 3))
           /\ dropped st' = (dropped (RateState 5 0 3) + 1) mod 2 ^ 32).
Proof.
  split; [vm_compute; reflexivity|].
  split; [vm_compute; reflexivity|].
  apply (decision_frame (Config 1000 200) 8 (ipv4_frame 7) 5
           (World {[ 7 := RateState 5 0 3 ]} [] []) 7 (RateState 5 0 3));
    vm_compute; reflexivity.
Defined.

(** C6. When the bucket of a packet has no token after the refill, the
    verdict is [TC_ACT_SHOT] and the bucket's [dropped] is incremented
    whatever the ring buffer holds and whatever its capacity is; when the
    ring buffer is full the reservation fails, no record is added and
    nothing else changes. *)
Theorem drop_does_not_depend_on_ring_buffer cfg rb_records ctx now w k st0 :
  flow_key ctx = Some k ->
  rate_map w !! k = Some st0 ->
  tokens (refill cfg now st0) <= 0 ->
  let st1 := refill cfg now st0 in
  let r := tc_ingress cfg rb_records ctx now w in
  r.1 = TC_ACT_SHOT
  /\ rate_map r.2 =
       <[k := RateState (last_ts_ns st1) (tokens st1) (u32 (dropped st0 + 1))]>
         (rate_map w)
  /\ ((rb_records <= length (rb w))%nat -> rb r.2 = rb w)
  /\ ((length (rb w) < rb_records)%nat ->
      rb r.2 = rb w ++ [Event k now (u32 (dropped st0 + 1))]).
Proof.
  intros Hk Hm Ht st1 r. subst r st1.
  rewrite (tc_ingress_existing cfg rb_records ctx now w k st0 Hk Hm).
  cbv zeta. unfold after_decision.
  destruct (Z.gtb_spec (tokens (refill cfg now st0)) 0) as [Hgt|_]; [lia|].
  rewrite !refill_dropped.
  destruct (bool_decide_reflect (length (rb w) < rb_records)%nat);
    cbn [fst snd rate_map rb];
    (split; [reflexivity|]); (split; [reflexivity|]); split; intros; try lia;
    reflexivity.
Qed.

Lemma drop_does_not_depend_on_ring_buffer_witness :
  flow_key (ipv4_frame 7) = Some 7
  /\ rate_map (World {[ 7 := RateState 5 0 3 ]} [] []) !! 7
     = Some (RateState 5 0 3)
  /\ tokens (refill (Config 1000 200) 5 (RateState 5 0 3)) <= 0
  /\ (tc_ingress (Config 1000 200) 0 (ipv4_frame 7) 5
        (World {[ 7 := RateState 5 0 3 ]} [] [])).1 = TC_ACT_SHOT.
Proof.
  split; [vm_compute; reflexivity|].
  split; [vm_compute; reflexivity|].
  split; [vm_compute; discriminate|].
  apply (drop_does_not_depend_on_ring_buffer (Config 1000 200) 0
           (ipv4_frame 7) 5 (World {[ 7 := RateState 5 0 3 ]} [] []) 7
           (RateState 5 0 3)).
  - vm_compute; reflexivity.
  - vm_compute; reflexivity.
  - vm_compute; discriminate.
Defined.

(** ** The token invariant *)

Section Invariant.

Variable cfg : config.
Variable rb_records : nat.
Hypothesis burst_int : 0 < burst cfg < 2 ^ 31.

Lemma store_inv_empty : store_inv cfg empty_world.
Proof. apply map_Forall_empty. Qed.

Lemma after_decision_inv st1 :
  bucket_inv cfg st1 -> bucket_inv cfg (after_decision st1).
Proof.
  unfold bucket_inv, after_decision. intros H.
  destruct (Z.gtb_spec (tokens st1) 0); cbn [tokens]; [|exact H].
  unfold u32. rewrite Z.mod_small; lia.
Qed.

Lemma tc_ingress_store_inv ctx now w :
  store_inv cfg w -> store_inv cfg (tc_ingress cfg rb_records ctx now w).2.
Proof.
  intros Hw. destruct (flow_key ctx) as [k|] eqn:Hk.
  - destruct (rate_map w !! k) as [st0|] eqn:Hm.
    + rewrite (tc_ingress_existing cfg rb_records ctx now w k st0 Hk Hm).
      cbv zeta.
      assert (Hi : bucket_inv cfg (after_decision (refill cfg now st0))).
      { apply after_decision_inv, refill_tokens_bounds; [exact burst_int|].
        exact (Hw k st0 Hm). }
      destruct (_ >? 0); [|destruct (bool_decide _)];
        apply map_Forall_insert_2; assumption.
    + rewrite (tc_ingress_new cfg rb_records ctx now w k Hk Hm).
      unfold store_inv; cbn [snd rate_map].
      destruct (decide _); [|exact Hw].
      apply map_Forall_insert_2; [|exact Hw].
      unfold bucket_inv; cbn [tokens].
      destruct (Z.gtb_spec (burst cfg) 0); [|lia].
      unfold u32. rewrite Z.mod_small; lia.
  - rewrite (tc_ingress_reject cfg rb_records ctx now w Hk). exact Hw.
Qed.

Lemma run_store_inv pkts w :
  store_inv cfg w -> store_inv cfg (run cfg rb_records pkts w).2.
Proof.
  revert w. induction pkts as [|[ctx now] rest IH]; intros w Hw; [exact Hw|].
  cbn [run].
  pose proof (tc_ingress_store_inv ctx now w Hw) as H1.
  destruct (tc_ingress cfg rb_records ctx now w) as [v w1].
  specialize (IH w1 H1).
  destruct (run cfg rb_records rest w1) as [vs w2]. exact IH.
Qed.

End Invariant.

(** C3. With [0 < burst] (a C [int]), starting from a map whose buckets
    all satisfy [0 <= tokens <= burst] (in particular from the empty map),
    every bucket satisfies it again after any sequence of invocations,
    whichever path each one takes (initialisation, decrement, drop), and
    the bucket left by the refill step of any of them satisfies it too. *)
Theorem tokens_between_zero_and_burst cfg rb_records w :
  0 < burst cfg < 2 ^ 31 ->
  store_inv cfg w ->
  (forall pkts k st,
      rate_map (run cfg rb_records pkts w).2 !! k = Some st ->
      0 <= tokens st <= burst cfg
      /\ forall now, 0 <= tokens (refill cfg now st) <= burst cfg).
Proof.
  intros Hb Hw pkts k st Hst.
  pose proof (run_store_inv cfg rb_records Hb pkts w Hw k st Hst) as Hi.
  split; [exact Hi|].
  intros now. apply refill_tokens_bounds; assumption.
Qed.

Lemma tokens_between_zero_and_burst_witness :
  0 < burst (Config 1000 200) < 2 ^ 31
  /\ store_inv (Config 1000 200) empty_world
  /\ forall k st,
       rate_map (run (Config 1000 200) 8
                   [(ipv4_frame 7, 0); (ipv4_frame 7, 0); (ipv4_frame 9, 3)]
                   empty_world).2 !! k = Some st ->
       0 <= tokens st <= burst (Config 1000 200)
       /\ forall now,
            0 <= tokens (refill (Config 1000 200) now st)
              <= burst (Config 1000 200).
Proof.
  assert (Hb : 0 < burst (Config 1000 200) < 2 ^ 31) by (cbn; lia).
  split; [exact Hb|]. split; [apply map_Forall_empty|].
  apply (tokens_between_zero_and_burst (Config 1000 200) 8 empty_world Hb
           (map_Forall_empty _)).
Defined.

(** ** Sequences of invocations *)

Section Runs.

Variable cfg : config.
Variable rb_records : nat.

Lemma run_cons ctx now rest w :
  run cfg rb_records ((ctx, now) :: rest) w =
    let r := tc_ingress cfg rb_records ctx now w in
    (r.1 :: (run cfg rb_records rest r.2).1, (run cfg rb_records rest r.2).2).
Proof.
  cbn [run]. destruct (tc_ingress cfg rb_records ctx now w) as [v w1].
  cbn [fst snd]. destruct (run cfg rb_records rest w1). reflexivity.
Qed.

Lemma u32_succ d : u32 (u32 d + 1) = u32 (d + 1).
Proof. unfold u32. apply Z.add_mod_idemp_l. lia. Qed.

Lemma drop_events_nil k now d n : n <= 0 -> drop_events k now d n = [].
Proof. intros H. unfold drop_events. rewrite seqZ_nil by lia. reflexivity. Qed.

Lemma drop_events_cons k now d n :
  0 < n ->
  drop_events k now d n
  = Event k now (u32 (d + 1)) :: drop_events k now (d + 1) (n - 1).
Proof.
  intros H. unfold drop_events. rewrite (seqZ_cons (d + 1) n) by lia.
  cbn [map]. replace (Z.succ (d + 1)) with (d + 1 + 1) by lia.
  replace (Z.pred n) with (n - 1) by lia. reflexivity.
Qed.

Lemma drop_events_exact k now n :
  n < 2 ^ 32 -> drop_events k now 0 n = burst_events k now n.
Proof.
  intros H. unfold drop_events, burst_events. apply map_ext_in.
  intros i Hi. apply list_elem_of_In, elem_of_seqZ in Hi.
  unfold u32. rewrite Z.mod_small by lia. reflexivity.
Qed.

(** A burst at a single clock value [now] on a bucket last touched at
    [now]: tokens are consumed one per packet; once they are gone every
    packet is dropped, and its record, carrying the next counter value, is
    added to the ring buffer as long as the ring buffer has room. *)
Lemma run_burst_existing k now pkts :
  Forall (fun p => flow_key p.1 = Some k /\ p.2 = now) pkts ->
  forall w t d,
    rate_map w !! k = Some (RateState now t (u32 d)) ->
    0 <= t < 2 ^ 32 ->
    let n := Z.of_nat (length pkts) in
    (run cfg rb_records pkts w).1
      = replicate (Z.to_nat (Z.min n t)) TC_ACT_OK
        ++ replicate (Z.to_nat (n - t)) TC_ACT_SHOT
    /\ rb (run cfg rb_records pkts w).2
       = rb w ++ take (rb_records - length (rb w))
                      (drop_events k now d (n - t)).
Proof.
  induction 1 as [|[ctx now'] rest [Hk Hnow] _ IH]; intros w t d Hm Ht.
  - cbn [run fst snd length] in *. rewrite drop_events_nil by lia.
    replace (Z.to_nat (Z.min (Z.of_nat 0) t)) with 0%nat by lia.
    replace (Z.to_nat (Z.of_nat 0 - t)) with 0%nat by lia.
    rewrite take_nil. cbn [replicate app]. rewrite app_nil_r.
    split; reflexivity.
  - cbn [fst snd] in Hk, Hnow. subst now'.
    rewrite run_cons. cbv zeta. cbn [fst snd].
    rewrite (tc_ingress_existing cfg rb_records ctx now w k _ Hk Hm).
    cbv zeta. rewrite refill_same_time by reflexivity.
    unfold after_decision. cbn [tokens last_ts_ns dropped length] in *.
    destruct (Z.gtb_spec t 0) as [Hpos|Hzero].
    + cbn [fst snd].
      set (w1 := World _ _ _).
      assert (Hm1 : rate_map w1 !! k = Some (RateState now (t - 1) (u32 d))).
      { subst w1. cbn [rate_map]. rewrite lookup_insert_eq.
        unfold u32 at 1. rewrite Z.mod_small by lia. reflexivity. }
      destruct (IH w1 (t - 1) d Hm1) as [IHv IHr]; [lia|].
      rewrite IHv, IHr. subst w1; cbn [rb].
      replace (Z.to_nat (Z.min (Z.of_nat (S (length rest))) t))
        with (S (Z.to_nat (Z.min (Z.of_nat (length rest)) (t - 1)))) by lia.
      replace (Z.of_nat (S (length rest)) - t)
        with (Z.of_nat (length rest) - (t - 1)) by lia.
      split; reflexivity.
    + assert (t = 0) by lia. subst t. rewrite u32_succ.
      replace (Z.to_nat (Z.min (Z.of_nat (S (length rest))) 0)) with 0%nat by lia.
      replace (Z.to_nat (Z.of_nat (S (length rest)) - 0))
        with (S (Z.to_nat (Z.of_nat (length rest) - 0))) by lia.
      rewrite (drop_events_cons k now d) by lia.
      replace (Z.of_nat (S (length rest)) - 0 - 1)
        with (Z.of_nat (length rest) - 0) by lia.
      destruct (bool_decide_reflect (length (rb w) < rb_records)%nat)
        as [Hroom|Hfull]; cbn [fst snd].
      * set (w1 := World _ _ _).
        assert (Hm1 : rate_map w1 !! k = Some (RateState now 0 (u32 (d + 1)))).
        { subst w1. cbn [rate_map]. apply lookup_insert_eq. }
        destruct (IH w1 0 (d + 1) Hm1) as [IHv IHr]; [lia|].
        rewrite IHv, IHr. subst w1; cbn [rb]. rewrite length_app.
        cbn [length].
        replace (Z.to_nat (Z.min (Z.of_nat (length rest)) 0)) with 0%nat by lia.
        replace (rb_records - length (rb w))%nat
          with (S (rb_records - (length (rb w) + 1)))%nat by lia.
        cbn [replicate app take]. rewrite <- app_assoc.
        split; reflexivity.
      * set (w1 := World _ _ _).
        assert (Hm1 : rate_map w1 !! k = Some (RateState now 0 (u32 (d + 1)))).
        { subst w1. cbn [rate_map]. apply lookup_insert_eq. }
        destruct (IH w1 0 (d + 1) Hm1) as [IHv IHr]; [lia|].
        rewrite IHv, IHr. subst w1; cbn [rb].
        replace (Z.to_nat (Z.min (Z.of_nat (length rest)) 0)) with 0%nat by lia.
        replace (rb_records - length (rb w))%nat with 0%nat by lia.
        cbn [replicate app take]. split; reflexivity.
Qed.

End Runs.

(** ** Bursts *)

Lemma count_verdict_app v xs ys :
  count_verdict v (xs ++ ys) = (count_verdict v xs + count_verdict v ys)%nat.
Proof. unfold count_verdict. rewrite filter_app, length_app. reflexivity. Qed.

Lemma count_verdict_replicate v u n :
  count_verdict v (replicate n u) = if decide (u = v) then n else 0%nat.
Proof.
  unfold count_verdict. induction n as [|n IH]; cbn [replicate].
  - destruct (decide _); reflexivity.
  - rewrite filter_cons. destruct (decide (u = v)); cbn [length]; lia.
Qed.

(** C1, as amended. For [0 < burst] (a C [int]) and [N > burst] frames of
    one key [k], all processed at the same clock value, on a map that has
    no entry for [k] and fewer than [max_entries] entries: the first
    [burst] frames are admitted and the remaining [N - burst] are dropped;
    the records of the drops, with counters [1, 2, ..., N - burst] modulo
    2^32 in that order, are added to the ring buffer as long as it has
    room; with room for all of them and [N - burst < 2^32] the records
    added carry exactly [1, 2, ..., N - burst]. *)
Theorem burst_on_new_key cfg rb_records w k now pkts :
  0 < burst cfg < 2 ^ 31 ->
  burst cfg < Z.of_nat (length pkts) ->
  Forall (fun p => flow_key p.1 = Some k /\ p.2 = now) pkts ->
  rate_map w !! k = None ->
  Z.of_nat (size (rate_map w)) < max_entries ->
  let n := Z.of_nat (length pkts) in
  let r := run cfg rb_records pkts w in
  r.1 = replicate (Z.to_nat (burst cfg)) TC_ACT_OK
        ++ replicate (Z.to_nat (n - burst cfg)) TC_ACT_SHOT
  /\ count_verdict TC_ACT_OK r.1 = Z.to_nat (burst cfg)
  /\ count_verdict TC_ACT_SHOT r.1 = Z.to_nat (n - burst cfg)
  /\ rb r.2 = rb w ++ take (rb_records - length (rb w))
                           (drop_events k now 0 (n - burst cfg))
  /\ (Z.of_nat (length (rb w)) + (n - burst cfg) <= Z.of_nat rb_records ->
      n - burst cfg < 2 ^ 32 ->
      rb r.2 = rb w ++ burst_events k now (n - burst cfg)).
Proof.
  intros Hb Hn Hall Hm Hsize n r.
  assert (Hv : r.1 = replicate (Z.to_nat (burst cfg)) TC_ACT_OK
                     ++ replicate (Z.to_nat (n - burst cfg)) TC_ACT_SHOT
               /\ rb r.2 = rb w ++ take (rb_records - length (rb w))
                                        (drop_events k now 0 (n - burst cfg))).
  { subst r n. destruct pkts as [|[ctx now'] rest]; [cbn [length] in Hn; lia|].
    apply Forall_cons in Hall as [[Hk Hnow] Hrest].
    cbn [fst snd] in Hk, Hnow. subst now'. cbn [length] in *.
    rewrite run_cons. cbv zeta. cbn [fst snd].
    rewrite (tc_ingress_new cfg rb_records ctx now w k Hk Hm).
    cbn [fst snd]. destruct (decide _) as [_|Hfull]; [|contradiction].
    destruct (Z.gtb_spec (burst cfg) 0) as [_|Hle]; [|lia].
    set (w1 := World _ _ _).
    assert (Hm1 : rate_map w1 !! k
                  = Some (RateState now (burst cfg - 1) (u32 0))).
    { subst w1. cbn [rate_map]. rewrite lookup_insert_eq.
      unfold u32. rewrite Z.mod_small by lia. reflexivity. }
    destruct (run_burst_existing cfg rb_records k now rest Hrest w1
                (burst cfg - 1) 0 Hm1) as [Hvs Hev]; [lia|].
    cbv zeta in Hvs, Hev. rewrite Hvs, Hev. subst w1; cbn [rb].
    replace (Z.to_nat (Z.min (Z.of_nat (length rest)) (burst cfg - 1)))
      with (Z.to_nat (burst cfg - 1)) by lia.
    replace (Z.of_nat (length rest) - (burst cfg - 1))
      with (Z.of_nat (S (length rest)) - burst cfg) by lia.
    replace (Z.to_nat (burst cfg)) with (S (Z.to_nat (burst cfg - 1))) by lia.
    split; reflexivity. }
  destruct Hv as [Hv He]. split; [exact Hv|].
  rewrite Hv, !count_verdict_app, !count_verdict_replicate.
  split; [|split; [|split; [exact He|]]].
  - destruct (decide (TC_ACT_OK = TC_ACT_OK)); [|contradiction].
    destruct (decide (TC_ACT_SHOT = TC_ACT_OK)); [discriminate|]. lia.
  - destruct (decide (TC_ACT_OK = TC_ACT_SHOT)); [discriminate|].
    destruct (decide (TC_ACT_SHOT = TC_ACT_SHOT)); [|contradiction]. lia.
  - intros Hroom Hwrap. rewrite He. f_equal.
    rewrite <- (drop_events_exact k now) by exact Hwrap.
    apply take_ge. unfold drop_events. rewrite length_map, length_seqZ. lia.
Qed.

(** The scenario rate 1000, burst 200, 500 frames at once: 200 admitted,
    300 dropped, counters 1 .. 300. *)
Lemma burst_on_new_key_witness :
  let cfg := Config 1000 200 in
  let pkts := replicate (Z.to_nat 500) (ipv4_frame 7, 42) in
  let r := run cfg (Z.to_nat 8192) pkts empty_world in
  0 < burst cfg < 2 ^ 31
  /\ burst cfg < Z.of_nat (length pkts)
  /\ Forall (fun p => flow_key p.1 = Some 7 /\ p.2 = 42) pkts
  /\ rate_map empty_world !! 7 = None
  /\ Z.of_nat (size (rate_map empty_world)) < max_entries
  /\ count_verdict TC_ACT_OK r.1 = Z.to_nat 200
  /\ count_verdict TC_ACT_SHOT r.1 = Z.to_nat 300
  /\ rb r.2 = burst_events 7 42 300.
Proof.
  intros cfg pkts r.
  assert (Hall : Forall (fun p => flow_key p.1 = Some 7 /\ p.2 = 42) pkts).
  { apply Forall_replicate. split; vm_compute; reflexivity. }
  assert (Hlen : Z.of_nat (length pkts) = 500).
  { unfold pkts. rewrite length_replicate. lia. }
  assert (Hm : rate_map empty_world !! 7 = None) by reflexivity.
  assert (Hs : Z.of_nat (size (rate_map empty_world)) < max_entries)
    by (vm_compute; reflexivity).
  assert (Hb : 0 < burst cfg < 2 ^ 31) by (cbn; lia).
  assert (Hn : burst cfg < Z.of_nat (length pkts)) by (rewrite Hlen; cbn; lia).
  pose proof (burst_on_new_key cfg (Z.to_nat 8192) empty_world 7 42 pkts
                Hb Hn Hall Hm Hs) as H.
  cbv zeta in H. rewrite Hlen in H.
  destruct H as (_ & Hok & Hshot & _ & Hev).
  split; [exact Hb|]. split; [exact Hn|]. split; [exact Hall|].
  split; [exact Hm|]. split; [exact Hs|].
  split; [exact Hok|]. split; [exact Hshot|].
  apply Hev; cbn; lia.
Defined.

(** The last record of that burst carries the counter 300. *)
Example burst_events_last : last (burst_events 7 42 300) = Some (Event 7 42 300).
Proof. vm_compute. reflexivity. Qed.

(** *** The exhausted map *)

Lemma store_of_keys_lookup_ge n st k :
  Z.of_nat n <= k -> store_of_keys n st !! k = None.
Proof.
  induction n as [|n IH]; intros Hk; cbn [store_of_keys].
  - apply lookup_empty.
  - rewrite lookup_insert_ne by lia. apply IH. lia.
Qed.

Lemma store_of_keys_size n st : size (store_of_keys n st) = n.
Proof.
  induction n as [|n IH]; cbn [store_of_keys].
  - apply map_size_empty.
  - rewrite map_size_insert_None by (apply store_of_keys_lookup_ge; lia).
    rewrite IH. reflexivity.
Qed.

(** Once the map holds [max_entries] keys, the frames of a key without a
    bucket are all admitted and leave the map and the ring buffer as they
    are. *)
Lemma run_full_store cfg rb_records k pkts :
  Forall (fun p => flow_key p.1 = Some k) pkts ->
  forall w,
    rate_map w !! k = None ->
    max_entries <= Z.of_nat (size (rate_map w)) ->
    (run cfg rb_records pkts w).1 = replicate (length pkts) TC_ACT_OK
    /\ rate_map (run cfg rb_records pkts w).2 = rate_map w
    /\ rb (run cfg rb_records pkts w).2 = rb w.
Proof.
  induction 1 as [|[ctx now] rest Hk _ IH]; intros w Hm Hfull.
  - cbn. auto.
  - cbn [fst] in Hk. rewrite run_cons. cbv zeta. cbn [fst snd].
    rewrite (tc_ingress_new cfg rb_records ctx now w k Hk Hm).
    cbn [fst snd]. destruct (decide _) as [Hroom|_]; [lia|].
    set (w1 := World _ _ _).
    destruct (IH w1) as (Hv & Hmap & Hrb); [exact Hm | exact Hfull |].
    rewrite Hv, Hmap, Hrb. cbn [length replicate]. auto.
Qed.

(** C1, counterexample. With the map at [max_entries] entries the first
    frame of a new key cannot create its bucket, so every frame of the
    burst is admitted: burst 2, three frames, three admitted, none
    dropped, no record. *)
Lemma burst_on_full_store_all_admitted :
  let cfg := Config 1000 2 in
  let w := World (store_of_keys (Z.to_nat 16384) (RateState 0 0 0)) [] [] in
  let pkts := replicate 3 (ipv4_frame 20000, 5) in
  let r := run cfg (Z.to_nat 8192) pkts w in
  0 < rate_limit_pps cfg /\ 0 < burst cfg
  /\ burst cfg < Z.of_nat (length pkts)
  /\ Forall (fun p => flow_key p.1 = Some 20000 /\ p.2 = 5) pkts
  /\ rate_map w !! 20000 = None
  /\ r.1 = [TC_ACT_OK; TC_ACT_OK; TC_ACT_OK]
  /\ count_verdict TC_ACT_OK r.1 <> Z.to_nat (burst cfg)
  /\ count_verdict TC_ACT_SHOT r.1 = 0%nat
  /\ rb r.2 = [].
Proof.
  intros cfg w pkts r.
  assert (Hm : rate_map w !! 20000 = None).
  { apply store_of_keys_lookup_ge. lia. }
  assert (Hfull : max_entries <= Z.of_nat (size (rate_map w))).
  { unfold w; cbn [rate_map]. rewrite store_of_keys_size. unfold max_entries. lia. }
  assert (Hall : Forall (fun p => flow_key p.1 = Some 20000) pkts).
  { apply Forall_replicate. vm_compute. reflexivity. }
  destruct (run_full_store cfg (Z.to_nat 8192) 20000 pkts Hall w Hm Hfull)
    as (Hv & _ & Hrb).
  fold r in Hv, Hrb. cbn [length pkts replicate] in Hv.
  split; [cbn; lia|]. split; [cbn; lia|]. split; [cbn; lia|].
  split; [apply Forall_replicate; split; vm_compute; reflexivity|].
  split; [exact Hm|]. split; [exact Hv|].
  rewrite Hv, Hrb.
  split; [vm_compute; lia|]. split; reflexivity.
Qed.

(** ** Independence of the keys *)

Section Independence.

Variable cfg : config.
Variable rb_records : nat.

Lemma run_for_cons k ctx now rest w :
  run_for cfg rb_records k ((ctx, now) :: rest) w =
    let r := tc_ingress cfg rb_records ctx now w in
    if decide (flow_key ctx = Some k)
    then r.1 :: run_for cfg rb_records k rest r.2
    else run_for cfg rb_records k rest r.2.
Proof.
  cbn [run_for]. destruct (tc_ingress cfg rb_records ctx now w). reflexivity.
Qed.

(** An invocation for another key, or for a rejected frame, leaves the
    bucket of [k] alone. *)
Lemma tc_ingress_lookup_other k ctx now w :
  flow_key ctx <> Some k ->
  rate_map (tc_ingress cfg rb_records ctx now w).2 !! k = rate_map w !! k.
Proof.
  intros Hne. destruct (flow_key ctx) as [k'|] eqn:Hk.
  - assert (k' <> k) by congruence.
    destruct (rate_map w !! k') as [st0|] eqn:Hm.
    + rewrite (tc_ingress_existing cfg rb_records ctx now w k' st0 Hk Hm).
      cbv zeta. destruct (_ >? 0); [|destruct (bool_decide _)];
        cbn [snd rate_map]; apply lookup_insert_ne; assumption.
    + rewrite (tc_ingress_new cfg rb_records ctx now w k' Hk Hm).
      cbn [snd rate_map]. destruct (decide _); [|reflexivity].
      apply lookup_insert_ne; assumption.
  - rewrite (tc_ingress_reject cfg rb_records ctx now w Hk). reflexivity.
Qed.

(** An invocation adds at most one key and removes none. *)
Lemma tc_ingress_size ctx now w :
  (size (rate_map w) <= size (rate_map (tc_ingress cfg rb_records ctx now w).2)
   <= S (size (rate_map w)))%nat.
Proof.
  destruct (flow_key ctx) as [k|] eqn:Hk.
  - destruct (rate_map w !! k) as [st0|] eqn:Hm.
    + rewrite (tc_ingress_existing cfg rb_records ctx now w k st0 Hk Hm).
      cbv zeta. destruct (_ >? 0); [|destruct (bool_decide _)];
        cbn [snd rate_map];
        rewrite map_size_insert_Some by (rewrite Hm; eauto); lia.
    + rewrite (tc_ingress_new cfg rb_records ctx now w k Hk Hm).
      cbn [snd rate_map]. destruct (decide _); [|lia].
      rewrite map_size_insert_None by exact Hm. lia.
  - rewrite (tc_ingress_reject cfg rb_records ctx now w Hk). cbn [snd]. lia.
Qed.

Lemma run_for_alone k pkts :
  forall w1 w2,
    rate_map w1 !! k = rate_map w2 !! k ->
    settled k w1 w2 (length pkts) (length (only k pkts)) ->
    run_for cfg rb_records k pkts w1
    = (run cfg rb_records (only k pkts) w2).1.
Proof.
  induction pkts as [|[ctx now] rest IH]; intros w1 w2 Heq Hs; [reflexivity|].
  rewrite run_for_cons. cbv zeta. unfold only in *.
  rewrite filter_cons. rewrite filter_cons in Hs. cbn [fst] in *.
  pose proof (tc_ingress_size ctx now w1) as Hsz1.
  destruct (decide (flow_key ctx = Some k)) as [Hk|Hk].
  - rewrite run_cons. cbv zeta. cbn [fst snd length] in *.
    pose proof (tc_ingress_size ctx now w2) as Hsz2.
    destruct (rate_map w1 !! k) as [st0|] eqn:Hm1.
    + symmetry in Heq.
      rewrite (tc_ingress_existing cfg rb_records ctx now w1 k st0 Hk Hm1).
      rewrite (tc_ingress_existing cfg rb_records ctx now w2 k st0 Hk Heq).
      cbv zeta.
      assert (Hgo : forall w1' w2',
                 rate_map w1' !! k = Some (after_decision (refill cfg now st0)) ->
                 rate_map w2' !! k = Some (after_decision (refill cfg now st0)) ->
                 run_for cfg rb_records k rest w1'
                 = (run cfg rb_records
                      (filter (fun p => flow_key p.1 = Some k) rest) w2').1).
      { intros w1' w2' H1 H2. apply IH; [congruence|].
        left. rewrite H1. eauto. }
      destruct (_ >? 0).
      * cbn [fst snd]. f_equal.
        apply Hgo; cbn [rate_map]; apply lookup_insert_eq.
      * destruct (bool_decide (length (rb w1) < rb_records)%nat),
                 (bool_decide (length (rb w2) < rb_records)%nat);
          cbn [fst snd]; f_equal;
          apply Hgo; cbn [rate_map]; apply lookup_insert_eq.
    + symmetry in Heq.
      rewrite (tc_ingress_new cfg rb_records ctx now w1 k Hk Hm1) in *.
      rewrite (tc_ingress_new cfg rb_records ctx now w2 k Hk Heq) in *.
      cbn [fst snd rate_map] in *. f_equal.
      destruct Hs as [[? Hs]|[[Hf1 Hf2]|[Hr1 Hr2]]]; [congruence| |].
      * destruct (decide _) as [?|_]; [lia|].
        destruct (decide _) as [?|_]; [lia|].
        apply IH; cbn [rate_map]; [congruence|].
        right; left. cbn [rate_map]. split; assumption.
      * destruct (decide _) as [_|?]; [|lia].
        destruct (decide _) as [_|?]; [|lia].
        apply IH; cbn [rate_map].
        { rewrite !lookup_insert_eq. reflexivity. }
        left. cbn [rate_map]. rewrite lookup_insert_eq. eauto.
  - rewrite <- (tc_ingress_lookup_other k ctx now w1 Hk) in Heq.
    apply IH; [exact Heq|].
    cbn [length] in Hs.
    destruct Hs as [Hs|[[Hf1 Hf2]|[Hr1 Hr2]]].
    + left. rewrite (tc_ingress_lookup_other k ctx now w1 Hk). exact Hs.
    + right; left. split; [lia|exact Hf2].
    + right; right. split; [lia|exact Hr2].
Qed.

End Independence.

(** *** Room at the first frame of a key *)

Section RoomAtFirst.

Variable cfg : config.
Variable rb_records : nat.

Lemma room_at_first_dec k pkts w :
  room_at_first cfg rb_records k pkts w
  \/ ~ room_at_first cfg rb_records k pkts w.
Proof.
  unfold room_at_first.
  destruct (state_at_first cfg rb_records k pkts w) as [w'|]; [|left; exact I].
  destruct (Z_lt_dec (Z.of_nat (size (rate_map w'))) max_entries); auto.
Qed.

Lemma room_at_first_cons_other k ctx now rest w :
  flow_key ctx <> Some k ->
  room_at_first cfg rb_records k ((ctx, now) :: rest) w
  = room_at_first cfg rb_records k rest
      (tc_ingress cfg rb_records ctx now w).2.
Proof.
  intros Hk. unfold room_at_first. cbn [state_at_first].
  destruct (decide (flow_key ctx = Some k)); [contradiction|]. reflexivity.
Qed.

Lemma room_at_first_cons_own k ctx now rest w :
  flow_key ctx = Some k ->
  room_at_first cfg rb_records k ((ctx, now) :: rest) w
  = (Z.of_nat (size (rate_map w)) < max_entries).
Proof.
  intros Hk. unfold room_at_first. cbn [state_at_first].
  destruct (decide (flow_key ctx = Some k)); [reflexivity|contradiction].
Qed.

(** Room at the first frame of [k] is room at the start: the map never
    shrinks. *)
Lemma room_at_first_start k pkts :
  forall w,
    room_at_first cfg rb_records k pkts w ->
    only k pkts <> [] ->
    Z.of_nat (size (rate_map w)) < max_entries.
Proof.
  induction pkts as [|[ctx now] rest IH]; intros w Hroom Hne.
  - contradiction.
  - destruct (decide (flow_key ctx = Some k)) as [Hk|Hk].
    + rewrite room_at_first_cons_own in Hroom by exact Hk. exact Hroom.
    + rewrite room_at_first_cons_other in Hroom by exact Hk.
      pose proof (tc_ingress_size cfg rb_records ctx now w) as Hsz.
      assert (Hne' : only k rest <> []).
      { unfold only in *. rewrite filter_cons in Hne. cbn [fst] in Hne.
        destruct (decide (flow_key ctx = Some k)); [contradiction|exact Hne]. }
      specialize (IH _ Hroom Hne'). lia.
Qed.

(** With room at its first frame, a key without a bucket gets the verdicts
    it gets alone. *)
Lemma run_for_alone_room k pkts :
  forall w1 w2,
    rate_map w1 !! k = None ->
    rate_map w2 !! k = None ->
    room_at_first cfg rb_records k pkts w1 ->
    (only k pkts <> [] -> Z.of_nat (size (rate_map w2)) < max_entries) ->
    run_for cfg rb_records k pkts w1
    = (run cfg rb_records (only k pkts) w2).1.
Proof.
  induction pkts as [|[ctx now] rest IH]; intros w1 w2 Hm1 Hm2 Hroom Hw2;
    [reflexivity|].
  rewrite run_for_cons. cbv zeta. unfold only in *.
  rewrite filter_cons. rewrite filter_cons in Hw2. cbn [fst] in *.
  destruct (decide (flow_key ctx = Some k)) as [Hk|Hk].
  - rewrite room_at_first_cons_own in Hroom by exact Hk.
    specialize (Hw2 ltac:(discriminate)).
    rewrite run_cons. cbv zeta. cbn [fst snd].
    rewrite (tc_ingress_new cfg rb_records ctx now w1 k Hk Hm1).
    rewrite (tc_ingress_new cfg rb_records ctx now w2 k Hk Hm2).
    cbn [fst snd]. f_equal.
    destruct (decide _) as [_|?]; [|lia].
    destruct (decide _) as [_|?]; [|lia].
    apply run_for_alone; cbn [rate_map].
    + rewrite !lookup_insert_eq. reflexivity.
    + left. cbn [rate_map]. rewrite lookup_insert_eq. eauto.
  - rewrite room_at_first_cons_other in Hroom by exact Hk.
    apply IH; try assumption.
    rewrite tc_ingress_lookup_other by exact Hk. exact Hm1.
Qed.

(** Without room at its first frame, a key without a bucket is never
    limited. *)
Lemma run_for_full_at_first k pkts :
  forall w,
    rate_map w !! k = None ->
    ~ room_at_first cfg rb_records k pkts w ->
    run_for cfg rb_records k pkts w
    = replicate (length (only k pkts)) TC_ACT_OK.
Proof.
  induction pkts as [|[ctx now] rest IH]; intros w Hm Hroom.
  - exfalso. apply Hroom. exact I.
  - destruct (decide (flow_key ctx = Some k)) as [Hk|Hk].
    + rewrite room_at_first_cons_own in Hroom by exact Hk.
      assert (Hfull : max_entries <= Z.of_nat (size (rate_map w))) by lia.
      rewrite (run_for_alone cfg rb_records k _ w w eq_refl)
        by (right; left; split; exact Hfull).
      assert (Hall : Forall (fun p : sk_buff * Z => flow_key p.1 = Some k)
                       (only k ((ctx, now) :: rest))).
      { apply Forall_forall. intros p Hp. unfold only in Hp.
        apply list_elem_of_filter in Hp. tauto. }
      destruct (run_full_store cfg rb_records k _ Hall w Hm Hfull) as [Hv _].
      exact Hv.
    + rewrite room_at_first_cons_other in Hroom by exact Hk.
      rewrite run_for_cons. cbv zeta. unfold only. rewrite filter_cons.
      cbn [fst]. destruct (decide (flow_key ctx = Some k)); [contradiction|].
      apply IH; [|exact Hroom].
      rewrite tc_ingress_lookup_other by exact Hk. exact Hm.
Qed.

End RoomAtFirst.

(** C7, as amended. The verdicts given to the frames of a key [k] are the
    same in any two interleavings with frames of other keys that contain
    the same frames of [k] with the same clock values, provided that at
    the start [k] already has a bucket, or the two interleavings agree on
    whether the map has a free slot when the first frame of [k] arrives.
    They are the verdicts [k] gets when its frames are processed alone
    when [k] already has a bucket, or the map already holds [max_entries]
    keys, or the map has a free slot when the first frame of [k]
    arrives. *)
Theorem verdicts_of_key_independent cfg rb_records k w pkts1 pkts2 :
  only k pkts1 = only k pkts2 ->
  is_Some (rate_map w !! k)
  \/ (room_at_first cfg rb_records k pkts1 w
      <-> room_at_first cfg rb_records k pkts2 w) ->
  run_for cfg rb_records k pkts1 w = run_for cfg rb_records k pkts2 w
  /\ (is_Some (rate_map w !! k)
      \/ max_entries <= Z.of_nat (size (rate_map w))
      \/ room_at_first cfg rb_records k pkts1 w ->
      run_for cfg rb_records k pkts1 w
      = (run cfg rb_records (only k pkts1) w).1).
Proof.
  intros Hsame Hs.
  assert (Halone : forall pkts,
             is_Some (rate_map w !! k)
             \/ max_entries <= Z.of_nat (size (rate_map w))
             \/ room_at_first cfg rb_records k pkts w ->
             run_for cfg rb_records k pkts w
             = (run cfg rb_records (only k pkts) w).1).
  { intros pkts [H|[H|H]].
    - apply run_for_alone; [reflexivity|left; exact H].
    - apply run_for_alone; [reflexivity|right; left; auto].
    - destruct (rate_map w !! k) as [st|] eqn:Hm.
      + apply run_for_alone; [reflexivity|left; rewrite Hm; eauto].
      + apply run_for_alone_room; try assumption.
        apply (room_at_first_start cfg rb_records k pkts w H). }
  split; [|apply Halone].
  destruct (rate_map w !! k) as [st|] eqn:Hm.
  - rewrite !Halone by (left; eauto). rewrite Hsame. reflexivity.
  - destruct Hs as [[st Hst]|Hiff]; [discriminate|].
    destruct (room_at_first_dec cfg rb_records k pkts1 w) as [Hr1|Hr1].
    + rewrite (Halone pkts1) by auto.
      rewrite (Halone pkts2) by (right; right; apply Hiff; exact Hr1).
      rewrite Hsame. reflexivity.
    + assert (Hr2 : ~ room_at_first cfg rb_records k pkts2 w) by tauto.
      rewrite (run_for_full_at_first cfg rb_records k pkts1 w Hm Hr1).
      rewrite (run_for_full_at_first cfg rb_records k pkts2 w Hm Hr2).
      rewrite Hsame. reflexivity.
Qed.

Lemma verdicts_of_key_independent_witness :
  let cfg := Config 1000 1 in
  let a := (ipv4_frame 7, 0) in
  let b := (ipv4_frame 9, 0) in
  only 7 [b; a; b; a] = only 7 [a; a; b]
  /\ (room_at_first cfg 8 7 [b; a; b; a] empty_world
      <-> room_at_first cfg 8 7 [a; a; b] empty_world)
  /\ run_for cfg 8 7 [b; a; b; a] empty_world
     = run_for cfg 8 7 [a; a; b] empty_world.
Proof.
  intros cfg a b.
  assert (Hsame : only 7 [b; a; b; a] = only 7 [a; a; b])
    by (vm_compute; reflexivity).
  assert (Hiff : room_at_first cfg 8 7 [b; a; b; a] empty_world
                 <-> room_at_first cfg 8 7 [a; a; b] empty_world).
  { split; intros _; vm_compute; reflexivity. }
  split; [exact Hsame|]. split; [exact Hiff|].
  exact (proj1 (verdicts_of_key_independent cfg 8 7 empty_world
                  [b; a; b; a] [a; a; b] Hsame (or_intror Hiff))).
Defined.

(** *** The race for the last free slot *)

(** With one slot left in the map, burst 1 and two keys [a], [b] without a
    bucket: when [b] arrives first it takes the slot and [a] is never
    limited; when [a] arrives first its second frame is dropped. *)
Lemma last_slot cfg rb_records m0 r0 c0 a b fa fb now :
  burst cfg = 1 ->
  flow_key fa = Some a ->
  flow_key fb = Some b ->
  a <> b ->
  m0 !! a = None ->
  m0 !! b = None ->
  Z.of_nat (size m0) = max_entries - 1 ->
  run_for cfg rb_records a [(fb, now); (fa, now); (fa, now)] (World m0 r0 c0)
    = [TC_ACT_OK; TC_ACT_OK]
  /\ run_for cfg rb_records a [(fa, now); (fa, now); (fb, now)] (World m0 r0 c0)
     = [TC_ACT_OK; TC_ACT_SHOT].
Proof.
  intros Hb Hfa Hfb Hab Hma Hmb Hsize. split.
  - rewrite run_for_cons. cbv zeta.
    rewrite (tc_ingress_new cfg rb_records fb now (World m0 r0 c0) b Hfb Hmb).
    cbn [fst snd rate_map rb calls].
    destruct (decide (flow_key fb = Some a)) as [He|_]; [congruence|].
    destruct (decide _) as [_|Hn]; [|lia].
    set (w1 := World _ _ _).
    assert (Hm1 : rate_map w1 !! a = None).
    { subst w1; cbn [rate_map]. rewrite lookup_insert_ne by congruence.
      exact Hma. }
    assert (Hfull : max_entries <= Z.of_nat (size (rate_map w1))).
    { subst w1; cbn [rate_map]. rewrite map_size_insert_None by exact Hmb. lia. }
    rewrite (run_for_alone cfg rb_records a _ w1 w1 eq_refl)
      by (right; left; split; exact Hfull).
    assert (Ho : only a [(fa, now); (fa, now)] = [(fa, now); (fa, now)]).
    { unfold only. rewrite !filter_cons. cbn [fst].
      destruct (decide (flow_key fa = Some a)); [reflexivity|contradiction]. }
    rewrite Ho.
    destruct (run_full_store cfg rb_records a [(fa, now); (fa, now)])
      with (w := w1) as (Hv & _); auto.
  - rewrite run_for_cons. cbv zeta.
    rewrite (tc_ingress_new cfg rb_records fa now (World m0 r0 c0) a Hfa Hma).
    cbn [fst snd rate_map rb calls].
    destruct (decide (flow_key fa = Some a)) as [_|Hn]; [|contradiction].
    destruct (decide _) as [_|Hn]; [|lia].
    rewrite Hb. change (1 >? 0) with true. change (u32 (1 - 1)) with 0.
    set (w1 := World _ _ _).
    assert (Hm1 : rate_map w1 !! a = Some (RateState now 0 0)).
    { subst w1; cbn [rate_map]. apply lookup_insert_eq. }
    rewrite run_for_cons. cbv zeta.
    rewrite (tc_ingress_existing cfg rb_records fa now w1 a _ Hfa Hm1).
    cbv zeta. rewrite refill_same_time by reflexivity.
    cbn [tokens]. change (0 >? 0) with false.
    destruct (decide (flow_key fa = Some a)) as [_|Hn]; [|contradiction].
    destruct (bool_decide _); cbn [fst snd]; rewrite run_for_cons; cbv zeta;
      (destruct (decide (flow_key fb = Some a)) as [He|_]; [congruence|]);
      reflexivity.
Qed.

(** C7, counterexample. Map with [max_entries - 1] keys, burst 1, keys
    20000 and 30000 without a bucket. The frames of key 20000 are the same
    in both interleavings, yet its second frame is admitted when the frame
    of key 30000 comes first and dropped when it comes last. *)
Lemma last_slot_interleavings_differ :
  let cfg := Config 1000 1 in
  let w := World (store_of_keys (Z.to_nat 16383) (RateState 0 0 0)) [] [] in
  let a := (ipv4_frame 20000, 0) in
  let b := (ipv4_frame 30000, 0) in
  only 20000 [b; a; a] = only 20000 [a; a; b]
  /\ run_for cfg (Z.to_nat 8192) 20000 [b; a; a] w = [TC_ACT_OK; TC_ACT_OK]
  /\ run_for cfg (Z.to_nat 8192) 20000 [a; a; b] w = [TC_ACT_OK; TC_ACT_SHOT]
  /\ run_for cfg (Z.to_nat 8192) 20000 [b; a; a] w
     <> run_for cfg (Z.to_nat 8192) 20000 [a; a; b] w.
Proof.
  intros cfg w a b. subst w a b.
  set (m0 := store_of_keys (Z.to_nat 16383) (RateState 0 0 0)).
  assert (Hma : m0 !! 20000 = None) by (apply store_of_keys_lookup_ge; lia).
  assert (Hmb : m0 !! 30000 = None) by (apply store_of_keys_lookup_ge; lia).
  assert (Hsize : Z.of_nat (size m0) = max_entries - 1).
  { subst m0. rewrite store_of_keys_size. unfold max_entries. lia. }
  clearbody m0.
  assert (Hfa : flow_key (ipv4_frame 20000) = Some 20000)
    by (vm_compute; reflexivity).
  assert (Hfb : flow_key (ipv4_frame 30000) = Some 30000)
    by (vm_compute; reflexivity).
  assert (Hab : 20000 <> 30000) by lia.
  destruct (last_slot cfg (Z.to_nat 8192) m0 [] [] 20000 30000
              (ipv4_frame 20000) (ipv4_frame 30000) 0
              eq_refl Hfa Hfb Hab Hma Hmb Hsize) as [H1 H2].
  split.
  - unfold only. rewrite !filter_cons. cbn [fst]. rewrite Hfa, Hfb.
    reflexivity.
  - rewrite H1, H2.
    split; [reflexivity|]. split; [reflexivity|]. discriminate.
Qed.

(** ** Clock behind the stored timestamp, and products beyond 64 bits *)

(** C2, failing input. Rate 1000, burst 200, an empty bucket stamped
    5 000 000 000 ns, clock value 4 999 999 000 ns (one microsecond
    earlier). The unsigned difference is 2^64 - 1000, which passes the test
    [elapsed > 0]; the refill grants tokens up to the cap, moves the
    timestamp back to the clock value, and the packet is admitted. *)
Theorem refill_with_clock_behind :
  let cfg := Config 1000 200 in
  let st := RateState 5000000000 0 0 in
  let now := 4999999000 in
  let w := World {[ 7 := st ]} [] [] in
  now < last_ts_ns st
  /\ u64 (now - last_ts_ns st) = 2 ^ 64 - 1000
  /\ refill cfg now st = RateState now 200 0
  /\ (tc_ingress cfg 8 (ipv4_frame 7) now w).1 = TC_ACT_OK
  /\ rate_map (tc_ingress cfg 8 (ipv4_frame 7) now w).2 !! 7
     = Some (RateState now 199 0).
Proof.
  cbv zeta. split; [cbn; lia|].
  split; [vm_compute; reflexivity|].
  split; [vm_compute; reflexivity|].
  split; vm_compute; reflexivity.
Qed.

(** C4, failing input. Rate 1000, burst 200, an empty bucket stamped
    1 000 000 000 ns, next packet 18 446 744 073 709 552 ns (about 213.5
    days) later. The algorithm's [floor (elapsed_ns * rate / 10^9)] is
    18 446 744 073 tokens, so the bucket should be full; the 64-bit product
    wraps to 384, [add] is 0, the bucket is left as it is and the packet is
    dropped. *)
Theorem refill_with_wrapped_product :
  let cfg := Config 1000 200 in
  let st := RateState 1000000000 0 0 in
  let now := 1000000000 + 18446744073709552 in
  let w := World {[ 7 := st ]} [] [] in
  0 < now - last_ts_ns st < 2 ^ 64
  /\ (now - last_ts_ns st) * rate_limit_pps cfg / 1000000000 = 18446744073
  /\ u64 ((now - last_ts_ns st) * rate_limit_pps cfg) = 384
  /\ refill cfg now st = st
  /\ (tc_ingress cfg 8 (ipv4_frame 7) now w).1 = TC_ACT_SHOT.
Proof.
  cbv zeta. split; [cbn; lia|].
  split; [vm_compute; reflexivity|].
  split; [vm_compute; reflexivity|].
  split; vm_compute; reflexivity.
Qed.

(** ** Exit status of the loader *)

(** Start-up failures: the value returned is the negated error of the
    failing call, hence not zero. *)
Lemma main_load_failure s obs :
  argp_parse_ret s = 0 -> setup_ok s = true -> skel_open_ok s = true ->
  skel_load_ret s <> 0 ->
  main s obs = Some (- skel_load_ret s) /\ - skel_load_ret s <> 0.
Proof.
  intros Ha Hs Ho Hl. unfold main. rewrite Ha, Hs, Ho. cbn [negb Z.eqb].
  destruct (Z.eqb_spec (skel_load_ret s) 0); [contradiction|].
  cbn [negb]. split; [reflexivity|lia].
Qed.

Lemma main_attach_failure s obs :
  argp_parse_ret s = 0 -> setup_ok s = true -> skel_open_ok s = true ->
  skel_load_ret s = 0 ->
  attach_tc s <> 0 ->
  main s obs = Some (- attach_tc s) /\ - attach_tc s <> 0.
Proof.
  intros Ha Hs Ho Hl Hatt. unfold main. rewrite Ha, Hs, Ho, Hl.
  cbn [negb Z.eqb].
  destruct (Z.eqb_spec (attach_tc s) 0); [contradiction|].
  cbn [negb]. split; [reflexivity|lia].
Qed.

Lemma main_config_failure s obs :
  argp_parse_ret s <> 0 -> main s obs = Some (argp_parse_ret s).
Proof.
  intros Ha. unfold main.
  destruct (Z.eqb_spec (argp_parse_ret s) 0); [contradiction|]. reflexivity.
Qed.

(** A poll interrupted by the signal ends the loop with [err = 0]. *)
Lemma poll_loop_interrupted err polls rest :
  Forall (fun r => 0 <= r) polls ->
  poll_loop err (map exiting_clear polls ++ exiting_clear (- EINTR) :: rest)
    = Some 0.
Proof.
  intros H. revert err. induction H as [|r polls Hr _ IH]; intros err.
  - reflexivity.
  - cbn beta in Hr. cbn [map app poll_loop].
    destruct (Z.eqb_spec r (- EINTR)); [unfold EINTR in *; lia|].
    destruct (Z.ltb_spec r 0); [lia|]. apply IH.
Qed.

(** The flag seen at the loop test ends the loop with the result of the
    last poll still in [err]. *)
Lemma poll_loop_flag_after_polls err polls r rest :
  Forall (fun r => 0 <= r) (polls ++ [r]) ->
  poll_loop err (map exiting_clear (polls ++ [r]) ++ exiting_set :: rest)
    = Some r.
Proof.
  revert err. induction polls as [|p polls IH]; intros err H.
  - cbn [app] in H. apply Forall_cons in H as [H _]. cbn beta in H.
    cbn [map app poll_loop].
    destruct (Z.eqb_spec r (- EINTR)); [unfold EINTR in *; lia|].
    destruct (Z.ltb_spec r 0); [lia|]. reflexivity.
  - cbn [app] in H. apply Forall_cons in H as [Hp H]. cbn beta in Hp.
    cbn [map app poll_loop].
    destruct (Z.eqb_spec p (- EINTR)); [unfold EINTR in *; lia|].
    destruct (Z.ltb_spec p 0); [lia|]. apply IH. exact H.
Qed.

(** C8, failing input. Every start-up call succeeds; the first poll
    consumes three records and returns 3; the shutdown flag is set when the
    loop condition is evaluated next. No call has failed, yet [main]
    returns -3 and the exit status is 253, not 0. *)
Theorem main_shutdown_after_busy_poll :
  main startup_ok [exiting_clear 3; exiting_set] = Some (- 3)
  /\ exit_status (- 3) = 253.
Proof. split; vm_compute; reflexivity. Qed.

(** * Further properties of the engine *)

Section EngineFacts.

Variable cfg : config.
Variable rb_records : nat.

(** Verdict and bucket of an invocation on an existing bucket. *)
Lemma tc_ingress_existing_summary ctx now w k st0 :
  flow_key ctx = Some k ->
  rate_map w !! k = Some st0 ->
  (tc_ingress cfg rb_records ctx now w).1
    = (if tokens (refill cfg now st0) >? 0 then TC_ACT_OK else TC_ACT_SHOT)
  /\ rate_map (tc_ingress cfg rb_records ctx now w).2 !! k
     = Some (after_decision (refill cfg now st0)).
Proof.
  intros Hk Hm.
  rewrite (tc_ingress_existing cfg rb_records ctx now w k st0 Hk Hm).
  cbv zeta. destruct (_ >? 0); [|destruct (bool_decide _)];
    cbn [fst snd rate_map]; rewrite lookup_insert_eq; split; reflexivity.
Qed.

Lemma count_verdict_cons v x xs :
  count_verdict v (x :: xs)
  = ((if decide (x = v) then 1 else 0) + count_verdict v xs)%nat.
Proof.
  unfold count_verdict. rewrite filter_cons.
  destruct (decide (x = v)); reflexivity.
Qed.

(** The refill for a clock value at or after the stored timestamp, when
    the product fits 64 bits. *)
Lemma refill_forward now st :
  0 < rate_limit_pps cfg < 2 ^ 31 ->
  0 < burst cfg < 2 ^ 31 ->
  0 <= tokens st < 2 ^ 32 ->
  0 <= last_ts_ns st <= now ->
  (now - last_ts_ns st) * rate_limit_pps cfg < 2 ^ 64 ->
  refill cfg now st =
    let add := (now - last_ts_ns st) * rate_limit_pps cfg / 1000000000 in
    if add >? 0
    then RateState now (Z.min (tokens st + add) (burst cfg)) (dropped st)
    else st.
Proof.
  intros Hr Hb Ht Hl Ho.
  destruct (Z.eq_dec (last_ts_ns st) now) as [He|Hne].
  - rewrite refill_same_time by exact He. rewrite He, Z.sub_diag.
    reflexivity.
  - apply refill_no_overflow; try assumption. lia.
Qed.

(** The quantity [10^9 * tokens + rate * (hi - last_ts_ns)] does not grow
    in a refill, and the timestamp moves forward, to the clock value at
    most. *)
Lemma refill_potential now hi st :
  0 < rate_limit_pps cfg < 2 ^ 31 ->
  0 < burst cfg < 2 ^ 31 ->
  bucket_inv cfg st ->
  0 <= last_ts_ns st <= now -> now <= hi ->
  (hi - last_ts_ns st) * rate_limit_pps cfg < 2 ^ 64 ->
  let st1 := refill cfg now st in
  last_ts_ns st <= last_ts_ns st1 <= now
  /\ 1000000000 * tokens st1 + rate_limit_pps cfg * (hi - last_ts_ns st1)
     <= 1000000000 * tokens st + rate_limit_pps cfg * (hi - last_ts_ns st).
Proof.
  intros Hr Hb Hi Hl Hhi Ho st1. subst st1. unfold bucket_inv in Hi.
  rewrite refill_forward; try assumption; try lia; [|nia].
  cbv zeta.
  set (add := _ / 1000000000).
  assert (Hadd : 1000000000 * add
                 <= (now - last_ts_ns st) * rate_limit_pps cfg).
  { subst add. apply Z.mul_div_le. lia. }
  destruct (Z.gtb_spec add 0); cbn [last_ts_ns tokens]; [|lia].
  split; [lia|]. nia.
Qed.

End EngineFacts.

Lemma clock_between_le lo hi pkts : clock_between lo hi pkts -> lo <= hi.
Proof.
  revert lo. induction pkts as [|[ctx now] rest IH]; intros lo H; [exact H|].
  destruct H as [H1 H2]. apply IH in H2. lia.
Qed.

Lemma clock_between_weaken lo lo' hi pkts :
  lo' <= lo -> clock_between lo hi pkts -> clock_between lo' hi pkts.
Proof.
  destruct pkts as [|[ctx now] rest]; cbn [clock_between]; intros; lia || (split; [lia|tauto]).
Qed.

(** The bound on an existing bucket, for frames of its key alone. *)
Lemma rate_bound_existing cfg rb_records k hi pkts :
  0 < rate_limit_pps cfg < 2 ^ 31 ->
  0 < burst cfg < 2 ^ 31 ->
  Forall (fun p => flow_key p.1 = Some k) pkts ->
  forall w st,
    rate_map w !! k = Some st ->
    bucket_inv cfg st ->
    0 <= last_ts_ns st ->
    clock_between (last_ts_ns st) hi pkts ->
    (hi - last_ts_ns st) * rate_limit_pps cfg < 2 ^ 64 ->
    1000000000
      * Z.of_nat (count_verdict TC_ACT_OK (run cfg rb_records pkts w).1)
    <= 1000000000 * tokens st + rate_limit_pps cfg * (hi - last_ts_ns st).
Proof.
  intros Hr Hb. induction 1 as [|[ctx now] rest Hk _ IH];
    intros w st Hm Hi Hl Hc Ho.
  - cbn [run fst count_verdict filter length]. unfold bucket_inv in Hi.
    cbn [clock_between] in Hc. cbn. nia.
  - cbn [fst] in Hk. destruct Hc as [Hnow Hrest].
    pose proof (clock_between_le _ _ _ Hrest) as Hhi.
    rewrite run_cons. cbv zeta. cbn [fst snd].
    destruct (tc_ingress_existing_summary cfg rb_records ctx now w k st Hk Hm)
      as [Hv Hm1].
    destruct (refill_potential cfg now hi st Hr Hb Hi (conj Hl Hnow) Hhi Ho)
      as [Hts Hpot].
    pose proof (refill_tokens_bounds cfg now st Hb Hi) as Hi1.
    set (st1 := refill cfg now st) in *.
    pose proof (after_decision_inv cfg Hb st1 Hi1) as Hi2.
    assert (Hlast : last_ts_ns (after_decision st1) = last_ts_ns st1).
    { unfold after_decision. destruct (_ >? 0); reflexivity. }
    assert (IH' := IH (tc_ingress cfg rb_records ctx now w).2
                     (after_decision st1) Hm1 Hi2).
    rewrite Hlast in IH'.
    assert (Hrest' : clock_between (last_ts_ns st1) hi rest).
    { apply (clock_between_weaken now); [lia|exact Hrest]. }
    specialize (IH' ltac:(lia) Hrest' ltac:(nia)).
    rewrite count_verdict_cons, Hv.
    unfold after_decision in IH'. unfold bucket_inv in Hi1.
    destruct (Z.gtb_spec (tokens st1) 0) as [Hpos|Hzero].
    + cbn [tokens] in IH'. unfold u32 in IH'.
      rewrite Z.mod_small in IH' by lia.
      destruct (decide (TC_ACT_OK = TC_ACT_OK)); [|contradiction]. lia.
    + cbn [tokens] in IH'.
      destruct (decide (TC_ACT_SHOT = TC_ACT_OK)); [discriminate|]. lia.
Qed.

(** X1. Sustained rate. For [0 < rate] and [0 < burst] (C [int]s), a key
    without a bucket, a map with room for one key per frame, and frames
    whose clock values never go back between [t0] (the first frame of the
    key) and [hi], with [(hi - t0) * rate < 2^64]: however the frames of
    the key are interleaved with frames of other keys, the number of
    admitted frames of the key is at most [burst + rate * (hi - t0) / 10^9]. *)
Theorem admitted_at_most_burst_plus_rate cfg rb_records k pkts w t0 hi :
  0 < rate_limit_pps cfg < 2 ^ 31 ->
  0 < burst cfg < 2 ^ 31 ->
  rate_map w !! k = None ->
  Z.of_nat (size (rate_map w)) + Z.of_nat (length pkts) <= max_entries ->
  0 <= t0 ->
  clock_between t0 hi (only k pkts) ->
  (exists ctx rest, only k pkts = (ctx, t0) :: rest) ->
  (hi - t0) * rate_limit_pps cfg < 2 ^ 64 ->
  1000000000 * Z.of_nat (count_verdict TC_ACT_OK (run_for cfg rb_records k pkts w))
  <= 1000000000 * burst cfg + rate_limit_pps cfg * (hi - t0).
Proof.
  intros Hr Hb Hm Hroom Ht0 Hclock (ctx & rest & Honly) Ho.
  pose proof (length_filter (fun p : sk_buff * Z => flow_key p.1 = Some k)
                pkts) as Hlen.
  fold (only k pkts) in Hlen.
  rewrite (run_for_alone cfg rb_records k pkts w w eq_refl)
    by (right; right; split; lia).
  assert (Hone : (1 <= length pkts)%nat)
    by (rewrite Honly in Hlen; cbn [length] in Hlen; lia).
  assert (Hall : Forall (fun p : sk_buff * Z => flow_key p.1 = Some k)
                   (only k pkts)).
  { apply Forall_forall. intros p Hp. unfold only in Hp.
    apply list_elem_of_filter in Hp. tauto. }
  rewrite Honly in *.
  apply Forall_cons in Hall as [Hk Hall]. cbn [fst] in Hk.
  destruct Hclock as [_ Hclock].
  rewrite run_cons. cbv zeta. cbn [fst snd].
  rewrite (tc_ingress_new cfg rb_records ctx t0 w k Hk Hm). cbn [fst snd].
  destruct (decide _) as [_|Hfull]; [|lia].
  destruct (Z.gtb_spec (burst cfg) 0) as [_|?]; [|lia].
  set (w1 := World _ _ _).
  assert (Hm1 : rate_map w1 !! k = Some (RateState t0 (burst cfg - 1) 0)).
  { subst w1. cbn [rate_map]. rewrite lookup_insert_eq.
    unfold u32. rewrite Z.mod_small by lia. reflexivity. }
  pose proof (rate_bound_existing cfg rb_records k hi rest Hr Hb Hall w1
                (RateState t0 (burst cfg - 1) 0) Hm1) as Hbound.
  cbn [tokens last_ts_ns] in Hbound.
  specialize (Hbound ltac:(unfold bucket_inv; cbn [tokens]; lia) Ht0 Hclock Ho).
  rewrite count_verdict_cons.
  destruct (decide (TC_ACT_OK = TC_ACT_OK)); [|contradiction]. lia.
Qed.

Lemma admitted_at_most_burst_plus_rate_witness :
  let cfg := Config 10 2 in
  let a t := (ipv4_frame 7, t) in
  let b t := (ipv4_frame 9, t) in
  let pkts := [a 0; b 0; a 100000000; a 200000000; a 1000000000] in
  1000000000
    * Z.of_nat (count_verdict TC_ACT_OK (run_for cfg 8 7 pkts empty_world))
  <= 1000000000 * burst cfg + rate_limit_pps cfg * (1000000000 - 0).
Proof.
  intros cfg a b pkts.
  apply (admitted_at_most_burst_plus_rate cfg 8 7 pkts empty_world 0
           1000000000).
  - cbn; lia.
  - cbn; lia.
  - reflexivity.
  - vm_compute. discriminate.
  - lia.
  - vm_compute. repeat split; discriminate.
  - exists (ipv4_frame 7), [a 100000000; a 200000000; a 1000000000].
    vm_compute. reflexivity.
  - cbn; lia.
Defined.

(** X2. Admission on an existing bucket. With [0 < rate], [0 < burst]
    (C [int]s), a bucket within [0, burst], a clock value at or after the
    stored timestamp and [elapsed * rate < 2^64]: the packet is admitted
    exactly when [tokens + floor (elapsed_ns * rate / 10^9) >= 1], and then
    the bucket is left with [min (tokens + add) burst - 1] tokens. *)
Theorem admitted_iff_token_after_refill cfg rb_records ctx now w k st :
  0 < rate_limit_pps cfg < 2 ^ 31 ->
  0 < burst cfg < 2 ^ 31 ->
  flow_key ctx = Some k ->
  rate_map w !! k = Some st ->
  0 <= tokens st <= burst cfg ->
  0 <= last_ts_ns st <= now ->
  (now - last_ts_ns st) * rate_limit_pps cfg < 2 ^ 64 ->
  let add := (now - last_ts_ns st) * rate_limit_pps cfg / 1000000000 in
  let r := tc_ingress cfg rb_records ctx now w in
  (r.1 = TC_ACT_OK <-> 1 <= tokens st + add)
  /\ (r.1 = TC_ACT_OK ->
      exists st', rate_map r.2 !! k = Some st'
                  /\ tokens st' = Z.min (tokens st + add) (burst cfg) - 1).
Proof.
  intros Hr Hb Hk Hm Ht Hl Ho add r. subst r.
  destruct (tc_ingress_existing_summary cfg rb_records ctx now w k st Hk Hm)
    as [Hv Hm1].
  rewrite Hv, Hm1.
  rewrite (refill_forward cfg now st Hr Hb ltac:(lia) Hl Ho).
  cbv zeta. fold add.
  assert (Hadd : 0 <= add) by (subst add; apply Z.div_pos; nia).
  unfold after_decision.
  destruct (Z.gtb_spec add 0) as [Hpos|Hzero]; cbn [tokens].
  - destruct (Z.gtb_spec (Z.min (tokens st + add) (burst cfg)) 0); [|lia].
    split; [split; [lia|reflexivity]|].
    intros _. eexists. split; [reflexivity|]. cbn [tokens].
    unfold u32. rewrite Z.mod_small by lia. reflexivity.
  - assert (add = 0) by lia.
    destruct (Z.gtb_spec (tokens st) 0).
    + split; [split; [lia|reflexivity]|].
      intros _. eexists. split; [reflexivity|]. cbn [tokens].
      unfold u32. rewrite Z.mod_small by lia. lia.
    + split; [split; [unfold TC_ACT_OK, TC_ACT_SHOT; discriminate | lia]|].
      unfold TC_ACT_OK, TC_ACT_SHOT; discriminate.
Qed.

Lemma admitted_iff_token_after_refill_witness :
  let cfg := Config 10 10 in
  let st := RateState 0 0 3 in
  let w := World {[ 7 := st ]} [] [] in
  let r := tc_ingress cfg 8 (ipv4_frame 7) 250000000 w in
  (r.1 = TC_ACT_OK <-> 1 <= tokens st + 250000000 * 10 / 1000000000)
  /\ (r.1 = TC_ACT_OK ->
      exists st', rate_map r.2 !! 7 = Some st'
                  /\ tokens st'
                     = Z.min (tokens st + 250000000 * 10 / 1000000000) 10 - 1).
Proof.
  intros cfg st w r.
  apply (admitted_iff_token_after_refill cfg 8 (ipv4_frame 7) 250000000 w 7 st);
    try (cbn; lia); vm_compute; reflexivity.
Defined.

(** X3. Whatever the clock value (also one behind the stored timestamp),
    the refill of a bucket within [0, burst] never takes tokens away,
    never changes [dropped], and leaves the timestamp as it is or sets it
    to the clock value. *)
Theorem refill_never_takes_tokens cfg now st :
  0 < burst cfg < 2 ^ 31 ->
  0 <= tokens st <= burst cfg ->
  tokens st <= tokens (refill cfg now st)
  /\ dropped (refill cfg now st) = dropped st
  /\ (last_ts_ns (refill cfg now st) = last_ts_ns st
      \/ last_ts_ns (refill cfg now st) = now).
Proof.
  intros Hb Ht. split; [|split; [apply refill_dropped|]].
  - unfold refill.
    destruct (_ && _); [|lia].
    set (x := u64 (_ * _)).
    assert (Hx : 0 <= x < 2 ^ 64) by (apply Z.mod_pos_bound; lia).
    assert (Ha : x / 1000000000 < 2 ^ 35)
      by (apply Z.div_lt_upper_bound; lia).
    destruct (Z.gtb_spec (x / 1000000000) 0); [|lia].
    cbn [tokens]. unfold u64, u32.
    rewrite (Z.mod_small (tokens st)) by lia.
    rewrite (Z.mod_small (tokens st + _)) by lia.
    rewrite (Z.mod_small (burst cfg)) by lia.
    destruct (Z.gtb_spec (tokens st + x / 1000000000) (burst cfg));
      rewrite Z.mod_small; lia.
  - unfold refill.
    destruct (_ && _); [|left; reflexivity].
    destruct (_ >? 0); [right|left]; reflexivity.
Qed.

Lemma refill_never_takes_tokens_witness :
  tokens (RateState 5000000000 3 0)
  <= tokens (refill (Config 1000 200) 4999999000 (RateState 5000000000 3 0)).
Proof.
  apply (refill_never_takes_tokens (Config 1000 200) 4999999000
           (RateState 5000000000 3 0)); cbn; lia.
Defined.

(** ** What a run does to the map, the ring buffer and the log *)

Section RunFacts.

Variable cfg : config.
Variable rb_records : nat.

Lemma tc_ingress_keeps_keys ctx now w k :
  is_Some (rate_map w !! k) ->
  is_Some (rate_map (tc_ingress cfg rb_records ctx now w).2 !! k).
Proof.
  intros Hs. destruct (decide (flow_key ctx = Some k)) as [Hk|Hk].
  - destruct Hs as [st Hm].
    destruct (tc_ingress_existing_summary cfg rb_records ctx now w k st Hk Hm)
      as [_ ->]. eauto.
  - rewrite tc_ingress_lookup_other by exact Hk. exact Hs.
Qed.

Lemma tc_ingress_capacity ctx now w :
  Z.of_nat (size (rate_map w)) <= max_entries ->
  Z.of_nat (size (rate_map (tc_ingress cfg rb_records ctx now w).2))
    <= max_entries.
Proof.
  intros Hcap. destruct (flow_key ctx) as [k|] eqn:Hk.
  - destruct (rate_map w !! k) as [st0|] eqn:Hm.
    + rewrite (tc_ingress_existing cfg rb_records ctx now w k st0 Hk Hm).
      cbv zeta. destruct (_ >? 0); [|destruct (bool_decide _)];
        cbn [snd rate_map];
        rewrite map_size_insert_Some by (rewrite Hm; eauto); exact Hcap.
    + rewrite (tc_ingress_new cfg rb_records ctx now w k Hk Hm).
      cbn [snd rate_map]. destruct (decide _); [|exact Hcap].
      rewrite map_size_insert_None by exact Hm. lia.
  - rewrite (tc_ingress_reject cfg rb_records ctx now w Hk). exact Hcap.
Qed.

(** One invocation appends at most one record, only on a drop, only when
    the ring buffer has room, and the record is the key, the clock value
    and the counter just written to the bucket. *)
Lemma tc_ingress_ring_buffer ctx now w :
  let r := tc_ingress cfg rb_records ctx now w in
  rb r.2 = rb w
  \/ (r.1 = TC_ACT_SHOT
      /\ (length (rb w) < rb_records)%nat
      /\ exists k st',
           flow_key ctx = Some k
           /\ rate_map r.2 !! k = Some st'
           /\ rb r.2 = rb w ++ [Event k now (dropped st')]).
Proof.
  cbv zeta. destruct (flow_key ctx) as [k|] eqn:Hk.
  - destruct (rate_map w !! k) as [st0|] eqn:Hm.
    + rewrite (tc_ingress_existing cfg rb_records ctx now w k st0 Hk Hm).
      cbv zeta. unfold after_decision.
      destruct (_ >? 0); [left; reflexivity|].
      destruct (bool_decide_reflect (length (rb w) < rb_records)%nat);
        [right|left; reflexivity].
      cbn [fst snd rate_map rb]. split; [reflexivity|]. split; [assumption|].
      eexists k, _. split; [reflexivity|].
      rewrite lookup_insert_eq. split; reflexivity.
    + rewrite (tc_ingress_new cfg rb_records ctx now w k Hk Hm).
      left; reflexivity.
  - rewrite (tc_ingress_reject cfg rb_records ctx now w Hk).
    left; reflexivity.
Qed.

End RunFacts.

(** X4. The map never holds more than [max_entries] keys and never loses
    a key: if it holds at most [max_entries] keys before a run it does so
    after it, and every key that has a bucket before the run has one
    after it. *)
Theorem map_bounded_and_never_shrinks cfg rb_records pkts w :
  Z.of_nat (size (rate_map w)) <= max_entries ->
  Z.of_nat (size (rate_map (run cfg rb_records pkts w).2)) <= max_entries
  /\ (size (rate_map w) <= size (rate_map (run cfg rb_records pkts w).2))%nat
  /\ forall k, is_Some (rate_map w !! k) ->
               is_Some (rate_map (run cfg rb_records pkts w).2 !! k).
Proof.
  revert w. induction pkts as [|[ctx now] rest IH]; intros w Hcap.
  - cbn [run snd]. split; [exact Hcap|]. split; [lia|]. auto.
  - rewrite run_cons. cbv zeta. cbn [snd].
    pose proof (tc_ingress_capacity cfg rb_records ctx now w Hcap) as H1.
    pose proof (tc_ingress_size cfg rb_records ctx now w) as H2.
    destruct (IH _ H1) as (Ha & Hb & Hc).
    split; [exact Ha|]. split; [lia|].
    intros k Hk. apply Hc, tc_ingress_keeps_keys, Hk.
Qed.

Lemma map_bounded_and_never_shrinks_witness :
  Z.of_nat (size (rate_map
     (run (Config 1000 2) 8 [(ipv4_frame 7, 0); (ipv4_frame 9, 1)]
        empty_world).2)) <= max_entries.
Proof.
  apply (map_bounded_and_never_shrinks (Config 1000 2) 8
           [(ipv4_frame 7, 0); (ipv4_frame 9, 1)] empty_world).
  vm_compute. discriminate.
Defined.

(** X5. The ring buffer is only appended to, by at most one record per
    dropped packet, and it never grows beyond its capacity. *)
Theorem ring_buffer_append_only cfg rb_records pkts w :
  exists recs,
    rb (run cfg rb_records pkts w).2 = rb w ++ recs
    /\ (length recs
        <= count_verdict TC_ACT_SHOT (run cfg rb_records pkts w).1)%nat
    /\ ((length (rb w) <= rb_records)%nat ->
        (length (rb (run cfg rb_records pkts w).2) <= rb_records)%nat).
Proof.
  revert w. induction pkts as [|[ctx now] rest IH]; intros w.
  - exists []. cbn [run fst snd]. rewrite app_nil_r.
    split; [reflexivity|]. split; [cbn; lia|auto].
  - rewrite run_cons. cbv zeta. cbn [fst snd].
    destruct (IH (tc_ingress cfg rb_records ctx now w).2)
      as (recs & Hr & Hl & Hc).
    rewrite count_verdict_cons.
    destruct (tc_ingress_ring_buffer cfg rb_records ctx now w)
      as [Hsame|(Hv & Hroom & k & st' & _ & _ & Happ)].
    + exists recs. split; [rewrite Hr, Hsame; reflexivity|].
      split; [lia|]. intros Hw. apply Hc. rewrite Hsame. exact Hw.
    + exists (Event k now (dropped st') :: recs).
      split; [rewrite Hr, Happ, <- app_assoc; reflexivity|].
      rewrite Hv.
      destruct (decide (TC_ACT_SHOT = TC_ACT_SHOT)); [|contradiction].
      cbn [length]. split; [lia|].
      intros Hw. apply Hc. rewrite Happ, length_app. cbn [length]. lia.
Qed.

(** X6. A run in which no frame is accounted to the key [k] leaves the
    bucket of [k] (or its absence) exactly as it was. *)
Theorem run_leaves_other_keys cfg rb_records k pkts w :
  Forall (fun p => flow_key p.1 <> Some k) pkts ->
  rate_map (run cfg rb_records pkts w).2 !! k = rate_map w !! k.
Proof.
  intros H. revert w. induction H as [|[ctx now] rest Hk _ IH]; intros w.
  - reflexivity.
  - rewrite run_cons. cbv zeta. cbn [snd]. rewrite IH.
    apply tc_ingress_lookup_other. exact Hk.
Qed.

Lemma run_leaves_other_keys_witness :
  rate_map (run (Config 1000 2) 8
              [(ipv4_frame 9, 0); (SkBuff 56710 [], 1); (ipv4_frame 9, 2)]
              (World {[ 7 := RateState 0 1 4 ]} [] [])).2 !! 7
  = Some (RateState 0 1 4).
Proof.
  etransitivity.
  - apply (run_leaves_other_keys (Config 1000 2) 8 7
             [(ipv4_frame 9, 0); (SkBuff 56710 [], 1); (ipv4_frame 9, 2)]
             (World {[ 7 := RateState 0 1 4 ]} [] [])).
    repeat constructor; vm_compute; discriminate.
  - vm_compute. reflexivity.
Defined.

(** X7. An admitted packet adds no record; a record added by a dropped
    packet carries the key of the frame, the clock value of the
    invocation and the value of [dropped] now stored in the bucket. *)
Theorem record_is_snapshot_of_bucket cfg rb_records ctx now w :
  let r := tc_ingress cfg rb_records ctx now w in
  (r.1 = TC_ACT_OK -> rb r.2 = rb w)
  /\ (rb r.2 = rb w
      \/ exists k st',
           flow_key ctx = Some k
           /\ rate_map r.2 !! k = Some st'
           /\ rb r.2 = rb w ++ [Event k now (dropped st')]).
Proof.
  cbv zeta.
  destruct (tc_ingress_ring_buffer cfg rb_records ctx now w)
    as [Hsame|(Hv & _ & k & st' & Hk & Hm & Happ)].
  - split; [intros _; exact Hsame | left; exact Hsame].
  - split.
    + rewrite Hv. unfold TC_ACT_OK, TC_ACT_SHOT. discriminate.
    + right. exists k, st'. auto.
Qed.

(** X8. The helper calls of one invocation are one of five sequences:
    none (frame rejected by a guard); clock, lookup, update (first packet
    of a key); clock, lookup (admit); clock, lookup, reserve (drop without
    record); clock, lookup, reserve, submit (drop with record). So there
    are at most four helper calls, the map is updated only after a lookup
    that found nothing, and a record is submitted only after a successful
    reservation. *)
Theorem helper_calls_of_one_invocation cfg rb_records ctx now w :
  let r := tc_ingress cfg rb_records ctx now w in
  exists cs,
    calls r.2 = calls w ++ cs
    /\ ((cs = [] /\ flow_key ctx = None /\ r.1 = TC_ACT_OK)
        \/ exists k,
             flow_key ctx = Some k
             /\ ((cs = [call_ktime_get_ns; call_map_lookup_elem k;
                        call_map_update_elem k]
                  /\ rate_map w !! k = None /\ r.1 = TC_ACT_OK)
                 \/ (cs = [call_ktime_get_ns; call_map_lookup_elem k]
                     /\ is_Some (rate_map w !! k) /\ r.1 = TC_ACT_OK)
                 \/ (cs = [call_ktime_get_ns; call_map_lookup_elem k;
                           call_ringbuf_reserve]
                     /\ is_Some (rate_map w !! k) /\ r.1 = TC_ACT_SHOT
                     /\ (rb_records <= length (rb w))%nat /\ rb r.2 = rb w)
                 \/ (cs = [call_ktime_get_ns; call_map_lookup_elem k;
                           call_ringbuf_reserve; call_ringbuf_submit]
                     /\ is_Some (rate_map w !! k) /\ r.1 = TC_ACT_SHOT
                     /\ (length (rb w) < rb_records)%nat))).
Proof.
  cbv zeta. destruct (flow_key ctx) as [k|] eqn:Hk.
  - destruct (rate_map w !! k) as [st0|] eqn:Hm.
    + rewrite (tc_ingress_existing cfg rb_records ctx now w k st0 Hk Hm).
      cbv zeta. destruct (_ >? 0).
      * eexists. split; [reflexivity|]. right. exists k.
        split; [reflexivity|]. right; left. eauto.
      * destruct (bool_decide_reflect (length (rb w) < rb_records)%nat).
        -- eexists. split; [reflexivity|]. right. exists k.
           split; [reflexivity|]. right; right; right. eauto.
        -- eexists. split; [reflexivity|]. right. exists k.
           split; [reflexivity|]. right; right; left.
           cbn [fst snd rb]. repeat split; eauto. lia.
    + rewrite (tc_ingress_new cfg rb_records ctx now w k Hk Hm).
      eexists. split; [reflexivity|]. right. exists k.
      split; [reflexivity|]. left. auto.
  - rewrite (tc_ingress_reject cfg rb_records ctx now w Hk).
    exists []. rewrite app_nil_r. split; [reflexivity|]. left. auto.
Qed.

(** X9. State exhaustion. When the map already holds [max_entries] keys,
    a key without a bucket never gets one: in any interleaving every one
    of its frames is admitted, and after the run it still has no
    bucket. *)
Theorem full_map_never_limits_new_key cfg rb_records k pkts w :
  rate_map w !! k = None ->
  max_entries <= Z.of_nat (size (rate_map w)) ->
  run_for cfg rb_records k pkts w
    = replicate (length (only k pkts)) TC_ACT_OK
  /\ rate_map (run cfg rb_records pkts w).2 !! k = None.
Proof.
  intros Hm Hfull. split.
  - rewrite (run_for_alone cfg rb_records k pkts w w eq_refl)
      by (right; left; split; exact Hfull).
    assert (Hall : Forall (fun p : sk_buff * Z => flow_key p.1 = Some k)
                     (only k pkts)).
    { apply Forall_forall. intros p Hp. unfold only in Hp.
      apply list_elem_of_filter in Hp. tauto. }
    destruct (run_full_store cfg rb_records k (only k pkts) Hall w Hm Hfull)
      as [Hv _]. exact Hv.
  - revert w Hm Hfull. induction pkts as [|[ctx now] rest IH]; intros w Hm Hfull.
    + exact Hm.
    + rewrite run_cons. cbv zeta. cbn [snd].
      pose proof (tc_ingress_size cfg rb_records ctx now w) as Hsz.
      apply IH; [|lia].
      destruct (decide (flow_key ctx = Some k)) as [Hk|Hk].
      * rewrite (tc_ingress_new cfg rb_records ctx now w k Hk Hm).
        cbn [snd rate_map]. destruct (decide _); [lia|exact Hm].
      * rewrite tc_ingress_lookup_other by exact Hk. exact Hm.
Qed.

Lemma full_map_never_limits_new_key_witness :
  let w := World (store_of_keys (Z.to_nat 16384) (RateState 0 0 0)) [] [] in
  let pkts := [(ipv4_frame 20000, 0); (ipv4_frame 3, 0); (ipv4_frame 20000, 0)] in
  run_for (Config 1000 1) 8 20000 pkts w
    = replicate (length (only 20000 pkts)) TC_ACT_OK.
Proof.
  intros w pkts.
  apply (full_map_never_limits_new_key (Config 1000 1) 8 20000 pkts w).
  - apply store_of_keys_lookup_ge. lia.
  - unfold w; cbn [rate_map]. rewrite store_of_keys_size.
    unfold max_entries. lia.
Defined.

Lemma run_keeps_keys cfg rb_records pkts w k :
  is_Some (rate_map w !! k) ->
  is_Some (rate_map (run cfg rb_records pkts w).2 !! k).
Proof.
  revert w. induction pkts as [|[ctx now] rest IH]; intros w Hs; [exact Hs|].
  rewrite run_cons. cbv zeta. cbn [snd].
  apply IH, tc_ingress_keeps_keys, Hs.
Qed.

(** X10. The counter of a bucket counts the drops of its key: after any
    run, the [dropped] field of the bucket of [k] equals, modulo 2^32, its
    value before the run (0 when the bucket did not exist) plus the number
    of frames of [k] dropped during the run; a key that still has no
    bucket had no frame dropped. *)
Theorem dropped_counts_drops cfg rb_records k pkts w :
  let d0 := match rate_map w !! k with Some st => dropped st | None => 0 end in
  let n := Z.of_nat (count_verdict TC_ACT_SHOT (run_for cfg rb_records k pkts w)) in
  match rate_map (run cfg rb_records pkts w).2 !! k with
  | Some st' => u32 (dropped st') = u32 (d0 + n)
  | None => n = 0
  end.
Proof.
  cbv zeta. revert w. induction pkts as [|[ctx now] rest IH]; intros w.
  - cbn [run run_for snd]. unfold count_verdict. cbn [filter length].
    destruct (rate_map w !! k); [rewrite Z.add_0_r|]; reflexivity.
  - rewrite run_cons, run_for_cons. cbv zeta. cbn [snd].
    specialize (IH (tc_ingress cfg rb_records ctx now w).2).
    destruct (decide (flow_key ctx = Some k)) as [Hk|Hk].
    + rewrite count_verdict_cons.
      destruct (rate_map w !! k) as [st0|] eqn:Hm.
      * destruct (tc_ingress_existing_summary cfg rb_records ctx now w k st0
                    Hk Hm) as [Hv Hm1].
        rewrite Hm1 in IH. rewrite Hv. unfold after_decision in IH.
        destruct (_ >? 0); cbn [dropped] in IH;
          rewrite refill_dropped in IH.
        -- destruct (decide (TC_ACT_OK = TC_ACT_SHOT)); [discriminate|].
           exact IH.
        -- destruct (decide (TC_ACT_SHOT = TC_ACT_SHOT)); [|contradiction].
           destruct (run_keeps_keys cfg rb_records rest
                       (tc_ingress cfg rb_records ctx now w).2 k) as [st' Hst'];
             [rewrite Hm1; eauto|].
           rewrite Hst' in *.
           rewrite IH. unfold u32.
           rewrite Z.add_mod_idemp_l by lia. f_equal. lia.
      * rewrite (tc_ingress_new cfg rb_records ctx now w k Hk Hm) in *.
        cbn [fst snd rate_map] in *.
        destruct (decide (TC_ACT_OK = TC_ACT_SHOT)); [discriminate|].
        destruct (decide _).
        -- rewrite lookup_insert_eq in IH. cbn [dropped] in IH. exact IH.
        -- rewrite Hm in IH. exact IH.
    + rewrite (tc_ingress_lookup_other cfg rb_records k ctx now w Hk) in IH.
      exact IH.
Qed.

(** * Properties of the loader *)

(** ** [parse_arg] *)

Lemma c_str_length_le buf : (length (c_str buf) <= length buf)%nat.
Proof.
  induction buf as [|b rest IH]; cbn [c_str length]; [lia|].
  destruct (Byte.eqb b x00); cbn [length]; lia.
Qed.

Lemma c_str_terminated arg pad :
  Forall (fun b => b <> x00) arg ->
  c_str (arg ++ x00 :: pad) = arg.
Proof.
  induction 1 as [|b rest Hb _ IH]; cbn [app c_str].
  - reflexivity.
  - destruct (Byte.eqb b x00) eqn:E.
    + apply byte_dec_bl in E. contradiction.
    + rewrite IH. reflexivity.
Qed.

Lemma c_str_before_nul arg pad :
  (length (c_str (arg ++ x00 :: pad)) <= length arg)%nat.
Proof.
  induction arg as [|b rest IH]; cbn [app c_str length].
  - change (Byte.eqb x00 x00) with true. cbn [length]. lia.
  - destruct (Byte.eqb b x00); cbn [length]; lia.
Qed.

Lemma strncpy_terminated arg :
  (length arg < IFNAMSIZ)%nat ->
  exists pad, strncpy arg (IFNAMSIZ - 1) ++ [x00] = arg ++ x00 :: pad
              /\ length (arg ++ x00 :: pad) = IFNAMSIZ.
Proof.
  unfold strncpy, IFNAMSIZ. intros Hlen.
  rewrite take_ge by lia. rewrite <- app_assoc.
  destruct (16 - 1 - length arg)%nat as [|n] eqn:E; cbn [replicate app].
  - exists []. split; [reflexivity|]. rewrite length_app. cbn [length]. lia.
  - exists (replicate n x00 ++ [x00]). split; [reflexivity|].
    rewrite length_app. cbn [length]. rewrite length_app, length_replicate.
    cbn [length]. lia.
Qed.

(** X11. An interface name without NUL byte and shorter than [IFNAMSIZ]
    is stored so that the string read back from [env.ifname] is the
    argument; the array keeps its size and the other fields are left as
    they are. A name of [IFNAMSIZ] bytes or more ends the process with the
    usage message. *)
Theorem parse_arg_ifname_round_trip arg val errno env :
  Forall (fun b => b <> x00) arg ->
  match parse_arg KEY_i arg val errno env with
  | parsed env' =>
      (length arg < IFNAMSIZ)%nat
      /\ c_str (env_ifname env') = arg
      /\ length (env_ifname env') = IFNAMSIZ
      /\ env_rate env' = env_rate env
      /\ env_burst env' = env_burst env
      /\ env_verbose env' = env_verbose env
  | usage_exit => (IFNAMSIZ <= length arg)%nat
  | err_unknown => False
  end.
Proof.
  intros Harg. unfold parse_arg. cbn [Z.eqb KEY_i Pos.eqb].
  destruct (Nat.leb_spec IFNAMSIZ (length arg)) as [Hlong|Hshort];
    [exact Hlong|].
  destruct (strncpy_terminated arg Hshort) as (pad & Heq & Hlen).
  cbn [env_ifname env_rate env_burst env_verbose]. rewrite Heq.
  rewrite c_str_terminated by exact Harg.
  split; [exact Hshort|]. split; [reflexivity|]. split; [exact Hlen|].
  split; [reflexivity|]. split; reflexivity.
Qed.

Lemma parse_arg_ifname_round_trip_witness :
  match parse_arg KEY_i [x65; x74; x68; x30] 0 0 default_env with
  | parsed env' => c_str (env_ifname env') = [x65; x74; x68; x30]
  | _ => False
  end.
Proof.
  pose proof (parse_arg_ifname_round_trip [x65; x74; x68; x30] 0 0 default_env)
    as H.
  destruct (parse_arg KEY_i [x65; x74; x68; x30] 0 0 default_env);
    [apply H | |]; try discriminate.
  - repeat constructor; discriminate.
  - exfalso. assert (Hl : (IFNAMSIZ <= 4)%nat).
    { apply H. repeat constructor; discriminate. }
    unfold IFNAMSIZ in Hl. lia.
  - apply H. repeat constructor; discriminate.
Defined.

(** X12. Every option that [parse_arg] accepts keeps [env] usable,
    provided the value returned by [strtol] fits a C [int]: starting from
    a usable [env] (the initial one is), the rate and the burst stay
    positive [int]s and the interface name stays a terminated string in a
    full array, so the configuration written to the program satisfies
    [0 < burst < 2^31] and [0 < rate < 2^31]. *)
Theorem parse_arg_keeps_env_valid key arg val errno env env' :
  val < 2 ^ 31 ->
  env_valid env ->
  parse_arg key arg val errno env = parsed env' ->
  env_valid env'
  /\ 0 < burst (config_of_env env') < 2 ^ 31
  /\ 0 < rate_limit_pps (config_of_env env') < 2 ^ 31.
Proof.
  intros Hval (Hr & Hb & Hl & Hc) Hp.
  assert (Hgoal : env_valid env').
  { unfold parse_arg in Hp.
    assert (Hs : 0 < val -> sint32 val = val).
    { intros Hpos. unfold sint32. rewrite Z.mod_small by lia. lia. }
    destruct (key =? KEY_i).
    { destruct (Nat.leb_spec IFNAMSIZ (length arg)) as [|Hshort];
        [discriminate|].
      injection Hp as <-. unfold env_valid.
      cbn [env_rate env_burst env_ifname].
      destruct (strncpy_terminated arg Hshort) as (pad & Heq & Hlen).
      change (strncpy arg 15) with (strncpy arg (IFNAMSIZ - 1)).
      rewrite Heq. split; [exact Hr|]. split; [exact Hb|].
      split; [exact Hlen|].
      pose proof (c_str_before_nul arg pad). lia. }
    destruct (key =? KEY_r).
    { destruct (Z.eqb_spec errno 0); cbn [negb orb] in Hp; [|discriminate].
      destruct (Z.leb_spec val 0); [discriminate|].
      injection Hp as <-. unfold env_valid.
      cbn [env_rate env_burst env_ifname]. rewrite Hs by lia. auto with lia. }
    destruct (key =? KEY_b).
    { destruct (Z.eqb_spec errno 0); cbn [negb orb] in Hp; [|discriminate].
      destruct (Z.leb_spec val 0); [discriminate|].
      injection Hp as <-. unfold env_valid.
      cbn [env_rate env_burst env_ifname]. rewrite Hs by lia. auto with lia. }
    destruct (key =? KEY_v).
    { injection Hp as <-. unfold env_valid.
      cbn [env_rate env_burst env_ifname]. auto. }
    destruct (_ || _); discriminate. }
  split; [exact Hgoal|]. destruct Hgoal as (Hr' & Hb' & _).
  unfold config_of_env. cbn [burst rate_limit_pps]. auto.
Qed.

Lemma parse_arg_keeps_env_valid_witness :
  env_valid default_env
  /\ match parse_arg KEY_b [x35; x30] 50 0 default_env with
     | parsed env' => env_valid env'
     | _ => False
     end.
Proof.
  assert (Hd : env_valid default_env).
  { unfold env_valid, IFNAMSIZ. cbn. repeat split; lia. }
  split; [exact Hd|].
  pose proof (parse_arg_keeps_env_valid KEY_b [x35; x30] 50 0 default_env) as H.
  destruct (parse_arg KEY_b [x35; x30] 50 0 default_env) as [env'| |] eqn:E;
    [|discriminate E|discriminate E].
  apply (H env'); [lia | exact Hd | reflexivity].
Defined.

Lemma refill_rate_not_positive cfg now st :
  rate_limit_pps cfg <= 0 -> refill cfg now st = st.
Proof.
  intros H. unfold refill.
  destruct (Z.gtb_spec (rate_limit_pps cfg) 0); [lia|]. reflexivity.
Qed.

(** X13. The test [val <= 0] is made on the [long] returned by [strtol]
    (64 bits) and the value is then converted to [int]: a positive
    multiple of 2^32 is accepted as a rate and stored as 0, and with the
    configuration built from that [env] the refill never adds a token. *)
Theorem parse_arg_rate_multiple_of_2_32 m arg env now st :
  0 < m ->
  exists env',
    parse_arg KEY_r arg (m * 2 ^ 32) 0 env = parsed env'
    /\ env_rate env' = 0
    /\ refill (config_of_env env') now st = st.
Proof.
  intros Hm. unfold parse_arg. cbn [Z.eqb KEY_i KEY_r Pos.eqb negb orb].
  destruct (Z.leb_spec (m * 2 ^ 32) 0); [lia|].
  eexists. split; [reflexivity|]. cbn [env_rate].
  assert (Hs : sint32 (m * 2 ^ 32) = 0).
  { unfold sint32. rewrite Z.add_comm, Z.mod_add by lia.
    rewrite Z.mod_small by lia. lia. }
  split; [exact Hs|].
  apply refill_rate_not_positive. unfold config_of_env.
  cbn [rate_limit_pps env_rate]. lia.
Qed.

Lemma parse_arg_rate_multiple_of_2_32_witness :
  exists env',
    parse_arg KEY_r [x34] (1 * 2 ^ 32) 0 default_env = parsed env'
    /\ env_rate env' = 0
    /\ refill (config_of_env env') 1000000000 (RateState 0 0 0)
       = RateState 0 0 0.
Proof.
  apply (parse_arg_rate_multiple_of_2_32 1 [x34] default_env 1000000000
           (RateState 0 0 0)).
  lia.
Defined.

(** ** [attach_tc] and [main] *)

Lemma attach_tc_zero s :
  attach_tc s = 0 <-> ifindex s <> 0 /\ tc_attach_ret s = 0.
Proof.
  unfold attach_tc.
  destruct (Z.eqb_spec (ifindex s) 0) as [Hi|Hi].
  - split; [lia|tauto].
  - cbn [Z.eqb negb andb].
    destruct (Z.eqb_spec (tc_attach_ret s) 0) as [Ha|Ha]; cbn [negb];
      split; try tauto; intros; try lia.
Qed.

Lemma main_after_startup s obs :
  startup_succeeds s ->
  main s obs = match poll_loop 0 obs with
               | Some err => Some (- err)
               | None => None
               end.
Proof.
  intros (Ha & Hs & Ho & Hl & Hi & Ht & Hr).
  assert (Hatt : attach_tc s = 0) by (apply attach_tc_zero; auto).
  unfold main. rewrite Ha, Hs, Ho, Hl, Hatt, Hr. reflexivity.
Qed.

(** X14. [main] returns 0 only when every start-up call succeeded:
    argument parsing, [setup], opening and loading the skeleton, the
    interface lookup, the TC attachment and the creation of the ring
    buffer reader. *)
Theorem main_zero_only_after_startup s obs :
  main s obs = Some 0 -> startup_succeeds s.
Proof.
  unfold main, startup_succeeds.
  destruct (Z.eqb_spec (argp_parse_ret s) 0) as [Ha|Ha]; cbn [negb];
    [|intros [= H]; lia].
  destruct (setup_ok s); cbn [negb]; [|discriminate].
  destruct (skel_open_ok s); cbn [negb]; [|discriminate].
  destruct (Z.eqb_spec (skel_load_ret s) 0) as [Hl|Hl]; cbn [negb];
    [|intros [= H]; lia].
  destruct (Z.eqb_spec (attach_tc s) 0) as [Hatt|Hatt]; cbn [negb];
    [|intros [= H]; lia].
  apply attach_tc_zero in Hatt as [Hi Ht].
  destruct (ring_buffer_new_ok s); cbn [negb]; [|discriminate].
  intros _. auto 10.
Qed.

Lemma main_zero_only_after_startup_witness :
  main startup_ok [exiting_clear 0; exiting_clear (- EINTR)] = Some 0
  /\ startup_succeeds startup_ok.
Proof.
  assert (H : main startup_ok [exiting_clear 0; exiting_clear (- EINTR)]
              = Some 0) by (vm_compute; reflexivity).
  split; [exact H|].
  apply (main_zero_only_after_startup startup_ok
           [exiting_clear 0; exiting_clear (- EINTR)] H).
Defined.

Lemma poll_loop_terminates err obs :
  In exiting_set obs -> is_Some (poll_loop err obs).
Proof.
  revert err. induction obs as [|o rest IH]; intros err Hin; [destruct Hin|].
  destruct o as [|r]; cbn [poll_loop]; [eauto|].
  destruct (r =? - EINTR); [eauto|]. destruct (r <? 0); [eauto|].
  apply IH. destruct Hin as [Hin|Hin]; [discriminate|exact Hin].
Qed.

(** X15. Once the shutdown flag is seen at a loop test, [main] returns:
    for every outcome of the start-up and every sequence of poll results
    in which the flag is eventually observed, [main] has a return
    value. *)
Theorem main_returns_after_shutdown_flag s obs :
  In exiting_set obs -> is_Some (main s obs).
Proof.
  intros Hin. unfold main.
  destruct (negb _); [eauto|]. destruct (negb _); [eauto|].
  destruct (negb _); [eauto|]. destruct (negb _); [eauto|].
  destruct (negb _); [eauto|]. destruct (negb _); [eauto|].
  destruct (poll_loop_terminates (attach_tc s) obs Hin) as [e He].
  rewrite He. eauto.
Qed.

Lemma main_returns_after_shutdown_flag_witness :
  is_Some (main startup_ok [exiting_clear 2; exiting_clear 0; exiting_set]).
Proof.
  apply (main_returns_after_shutdown_flag startup_ok
           [exiting_clear 2; exiting_clear 0; exiting_set]).
  cbn. auto.
Defined.

Lemma poll_loop_error err polls r rest :
  Forall (fun p => 0 <= p) polls ->
  r < 0 -> r <> - EINTR ->
  poll_loop err (map exiting_clear polls ++ exiting_clear r :: rest) = Some r.
Proof.
  intros H Hr Hne. revert err. induction H as [|p polls Hp _ IH]; intros err.
  - cbn [map app poll_loop].
    destruct (Z.eqb_spec r (- EINTR)); [contradiction|].
    destruct (Z.ltb_spec r 0); [reflexivity|lia].
  - cbn beta in Hp. cbn [map app poll_loop].
    destruct (Z.eqb_spec p (- EINTR)); [unfold EINTR in *; lia|].
    destruct (Z.ltb_spec p 0); [lia|]. apply IH.
Qed.

(** X16. A failing poll ends the loop and its error becomes the exit
    code: after a successful start-up and any number of polls that
    returned a count, a poll returning a negative value other than
    [-EINTR] makes [main] return the negated value, which is positive;
    later observations are not consulted. *)
Theorem main_poll_error_is_exit_code s polls r rest :
  startup_succeeds s ->
  Forall (fun p => 0 <= p) polls ->
  r < 0 -> r <> - EINTR ->
  main s (map exiting_clear polls ++ exiting_clear r :: rest) = Some (- r)
  /\ 0 < - r.
Proof.
  intros Hs Hp Hr Hne. rewrite main_after_startup by exact Hs.
  rewrite poll_loop_error by assumption. split; [reflexivity|lia].
Qed.

Lemma main_poll_error_is_exit_code_witness :
  main startup_ok (map exiting_clear [3; 0] ++ exiting_clear (-9) :: [exiting_set])
  = Some (- (-9)).
Proof.
  apply (main_poll_error_is_exit_code startup_ok [3; 0] (-9) [exiting_set]).
  - unfold startup_succeeds, startup_ok. cbn. repeat split; lia.
  - repeat constructor; lia.
  - lia.
  - unfold EINTR. lia.
Defined.

(** X17. A poll interrupted by the signal gives exit code 0: after a
    successful start-up and any number of polls that returned a count, a
    poll returning [-EINTR] makes [main] return 0; so does the flag seen
    before the first poll. *)
Theorem main_interrupted_poll_exits_zero s polls rest :
  startup_succeeds s ->
  Forall (fun p => 0 <= p) polls ->
  main s (map exiting_clear polls ++ exiting_clear (- EINTR) :: rest) = Some 0
  /\ main s (exiting_set :: rest) = Some 0.
Proof.
  intros Hs Hp. rewrite !main_after_startup by exact Hs.
  rewrite poll_loop_interrupted by exact Hp. split; reflexivity.
Qed.

Lemma main_interrupted_poll_exits_zero_witness :
  main startup_ok (map exiting_clear [3; 1] ++ exiting_clear (- EINTR) :: [])
  = Some 0.
Proof.
  apply (main_interrupted_poll_exits_zero startup_ok [3; 1] []).
  - unfold startup_succeeds, startup_ok. cbn. repeat split; lia.
  - repeat constructor; lia.
Defined.

(** X18. An interface name that [if_nametoindex] does not know: after a
    successful load, [attach_tc] returns -1 without attaching and [main]
    returns 1, whatever [bpf_tc_attach] would have returned and without
    entering the poll loop. *)
Theorem main_unknown_interface s obs :
  argp_parse_ret s = 0 -> setup_ok s = true -> skel_open_ok s = true ->
  skel_load_ret s = 0 ->
  ifindex s = 0 ->
  attach_tc s = -1 /\ main s obs = Some 1.
Proof.
  intros Ha Hs Ho Hl Hi.
  assert (Hatt : attach_tc s = -1) by (unfold attach_tc; rewrite Hi; reflexivity).
  split; [exact Hatt|].
  unfold main. rewrite Ha, Hs, Ho, Hl, Hatt. reflexivity.
Qed.

Lemma main_unknown_interface_witness :
  main (Startup 0 true true 0 0 0 true) [] = Some 1.
Proof.
  apply (main_unknown_interface (Startup 0 true true 0 0 0 true) []);
    reflexivity.
Defined.

(** ** [setup] and [handle_signal] *)

Lemma deliver_handled sig p : handled (deliver sig p) = handled p.
Proof. unfold deliver. destruct (decide _); reflexivity. Qed.

Lemma deliver_keeps_flag sigs p :
  exiting p = 1 ->
  exiting (foldl (fun q sig => deliver sig q) p sigs) = 1.
Proof.
  revert p. induction sigs as [|sig rest IH]; intros p Hp; [exact Hp|].
  cbn [foldl]. apply IH. unfold deliver.
  destruct (decide _); [reflexivity|exact Hp].
Qed.

Lemma deliver_sets_flag sigs s p :
  s ∈ handled p -> In s sigs ->
  exiting (foldl (fun q sig => deliver sig q) p sigs) = 1.
Proof.
  revert p. induction sigs as [|sig rest IH]; intros p Hh Hin; [destruct Hin|].
  cbn [foldl]. destruct Hin as [->|Hin].
  - apply deliver_keeps_flag. unfold deliver.
    destruct (decide _); [reflexivity|contradiction].
  - apply IH; [rewrite deliver_handled; exact Hh|exact Hin].
Qed.

(** X19. [setup] reports success only when [setrlimit] and both calls of
    [signal] succeeded; it then leaves the flag [exiting] clear, and from
    that state any sequence of signals handled by [handle_signal] that
    contains a SIGINT or a SIGTERM leaves the flag at 1: once set it is
    never cleared. *)
Theorem setup_then_signal_sets_exiting c sigs s :
  (setup c process_start).1 = true ->
  s = SIGINT \/ s = SIGTERM ->
  In s sigs ->
  setrlimit_ret c = 0
  /\ signal_err c SIGINT = false
  /\ signal_err c SIGTERM = false
  /\ exiting (setup c process_start).2 = 0
  /\ exiting (foldl (fun q sig => deliver sig q) (setup c process_start).2 sigs)
     = 1.
Proof.
  unfold setup, bump_memlock_rlimit. cbn [exiting handled strict_mode
    memlock_unlimited process_start].
  destruct (Z.eqb_spec (setrlimit_ret c) 0) as [Hr|Hr]; cbn [negb];
    [|discriminate].
  destruct (signal_err c SIGINT); [discriminate|].
  destruct (signal_err c SIGTERM); [discriminate|].
  cbn [fst snd]. intros _ Hs Hin.
  split; [exact Hr|]. split; [reflexivity|]. split; [reflexivity|].
  split; [reflexivity|].
  apply (deliver_sets_flag sigs s); [|exact Hin].
  unfold install. cbn [handled]. destruct Hs as [-> | ->]; set_solver.
Qed.

Lemma setup_then_signal_sets_exiting_witness :
  let c := SetupCalls 0 (fun _ => false) in
  exiting (foldl (fun q sig => deliver sig q) (setup c process_start).2
             [SIGTERM; SIGINT]) = 1.
Proof.
  intros c.
  apply (setup_then_signal_sets_exiting c [SIGTERM; SIGINT] SIGINT).
  - reflexivity.
  - left; reflexivity.
  - cbn. auto.
Defined.

(** ** [handle_event] *)

Lemma string_length_app (a b : string) :
  String.length (a +:+ b) = (String.length a + String.length b)%nat.
Proof.
  induction a as [|c a IH]; [reflexivity|].
  change (S (String.length (a +:+ b))
          = S (String.length a + String.length b)).
  f_equal. exact IH.
Qed.

Lemma dotted_four (a b c d : Z) :
  dotted [a; b; c; d]
  = pretty a +:+ "." +:+ pretty b +:+ "." +:+ pretty c +:+ "." +:+ pretty d.
Proof. reflexivity. Qed.

Lemma pretty_byte_length b :
  0 <= b < 256 -> (String.length (pretty b) <= 3)%nat.
Proof.
  intros Hb.
  assert (Hall : forallb (fun n => String.length (pretty (Z.of_nat n)) <=? 3)%nat
                   (seq 0 256) = true) by (vm_compute; reflexivity).
  rewrite forallb_forall in Hall.
  specialize (Hall (Z.to_nat b)). rewrite Z2Nat.id in Hall by lia.
  apply Nat.leb_le, Hall, in_seq. lia.
Qed.

(** The dotted decimal text of an address is shorter than the buffer
    given to [inet_ntop]. *)
Lemma dotted_address_fits a :
  (String.length (dotted (in_addr_bytes a)) <? INET_ADDRSTRLEN)%nat = true.
Proof.
  apply Nat.ltb_lt. unfold in_addr_bytes, INET_ADDRSTRLEN.
  rewrite dotted_four, !string_length_app. cbn [String.length].
  pose proof (pretty_byte_length (a mod 2 ^ 8)
                ltac:(apply Z.mod_pos_bound; lia)).
  pose proof (pretty_byte_length ((a / 2 ^ 8) mod 2 ^ 8)
                ltac:(apply Z.mod_pos_bound; lia)).
  pose proof (pretty_byte_length ((a / 2 ^ 16) mod 2 ^ 8)
                ltac:(apply Z.mod_pos_bound; lia)).
  pose proof (pretty_byte_length ((a / 2 ^ 24) mod 2 ^ 8)
                ltac:(apply Z.mod_pos_bound; lia)).
  lia.
Qed.

(** X20. [handle_event] returns 0 and never prints the fallback text: the
    dotted decimal form of an IPv4 address always fits the
    [INET_ADDRSTRLEN] bytes of the buffer, so the line is the prefix, the
    four bytes of [src_ip] in memory order in decimal, the counter and a
    newline. *)
Theorem handle_event_prints_address e :
  inet_ntop (in_addr_bytes (e_src_ip e)) INET_ADDRSTRLEN
  = Some (dotted (in_addr_bytes (e_src_ip e)))
  /\ handle_event e
     = (0, "Rate-limited packet from "
           +:+ dotted (in_addr_bytes (e_src_ip e))
           +:+ ", total dropped for this IP: " +:+ pretty (e_dropped e)
           +:+ newline).
Proof.
  assert (Hn : inet_ntop (in_addr_bytes (e_src_ip e)) INET_ADDRSTRLEN
               = Some (dotted (in_addr_bytes (e_src_ip e)))).
  { unfold inet_ntop. cbv zeta. rewrite dotted_address_fits. reflexivity. }
  split; [exact Hn|].
  unfold handle_event. cbv zeta. rewrite Hn. reflexivity.
Qed.

Lemma byte_at_range l i : 0 <= byte_at l i < 256.
Proof.
  unfold byte_at. destruct (l !! i) as [b|]; [|lia].
  pose proof (Byte.to_N_bounded b). lia.
Qed.

Lemma in_addr_bytes_saddr ctx :
  in_addr_bytes (saddr ctx)
  = [byte_at (data ctx) 26; byte_at (data ctx) 27;
     byte_at (data ctx) 28; byte_at (data ctx) 29].
Proof.
  unfold saddr, in_addr_bytes, sizeof_ethhdr, offsetof_saddr.
  cbn [Nat.add].
  pose proof (byte_at_range (data ctx) 26).
  pose proof (byte_at_range (data ctx) 27).
  pose proof (byte_at_range (data ctx) 28).
  pose proof (byte_at_range (data ctx) 29).
  set (b0 := byte_at (data ctx) 26) in *.
  set (b1 := byte_at (data ctx) 27) in *.
  set (b2 := byte_at (data ctx) 28) in *.
  set (b3 := byte_at (data ctx) 29) in *.
  repeat f_equal; Z.div_mod_to_equations; lia.
Qed.

(** X21. From the packet to the operator's line. When a frame of an
    existing bucket is dropped and the ring buffer has room, the record
    added is rendered by [handle_event] as the four source-address bytes
    of the packet (offsets 26 to 29) in packet order, in dotted decimal,
    followed by the bucket's new drop count [(dropped + 1) mod 2^32]. *)
Theorem dropped_packet_line cfg rb_records ctx now w k st0 :
  flow_key ctx = Some k ->
  rate_map w !! k = Some st0 ->
  tokens (refill cfg now st0) <= 0 ->
  (length (rb w) < rb_records)%nat ->
  exists e,
    rb (tc_ingress cfg rb_records ctx now w).2 = rb w ++ [e]
    /\ handle_event e
       = (0, "Rate-limited packet from "
             +:+ dotted [byte_at (data ctx) 26; byte_at (data ctx) 27;
                         byte_at (data ctx) 28; byte_at (data ctx) 29]
             +:+ ", total dropped for this IP: "
             +:+ pretty ((dropped st0 + 1) mod 2 ^ 32)
             +:+ newline).
Proof.
  intros Hk Hm Ht Hroom.
  assert (Hs : k = saddr ctx).
  { unfold flow_key in Hk. destruct (negb _); [discriminate|].
    destruct (_ <? _)%nat; [discriminate|].
    destruct (_ <? _)%nat; [discriminate|]. congruence. }
  rewrite (tc_ingress_existing cfg rb_records ctx now w k st0 Hk Hm).
  cbv zeta.
  destruct (Z.gtb_spec (tokens (refill cfg now st0)) 0); [lia|].
  rewrite (bool_decide_eq_true_2 _ Hroom). cbn [snd rb].
  eexists. split; [reflexivity|].
  unfold handle_event, inet_ntop. cbv zeta. cbn [e_src_ip e_dropped].
  rewrite dotted_address_fits.
  rewrite refill_dropped, Hs, in_addr_bytes_saddr. reflexivity.
Qed.

Lemma dropped_packet_line_witness :
  exists e,
    rb (tc_ingress (Config 1000 200) 8 (ipv4_frame 16885952) 5
          (World {[ 16885952 := RateState 5 0 41 ]} [] [])).2 = [] ++ [e]
    /\ handle_event e
       = (0, "Rate-limited packet from "
             +:+ dotted [192; 168; 1; 1]
             +:+ ", total dropped for this IP: "
             +:+ pretty 42
             +:+ newline).
Proof.
  apply (dropped_packet_line (Config 1000 200) 8 (ipv4_frame 16885952) 5
           (World {[ 16885952 := RateState 5 0 41 ]} [] []) 16885952
           (RateState 5 0 41)).
  - vm_compute. reflexivity.
  - vm_compute. reflexivity.
  - vm_compute. discriminate.
  - cbn. lia.
Defined.

(** The line of that record, in full. *)
Example operator_line_text :
  (handle_event (Event 16885952 5 42)).2
  = "Rate-limited packet from 192.168.1.1, total dropped for this IP: 42"
    +:+ newline.
Proof. vm_compute. reflexivity. Qed.
